(** * tpprl: the closed-form CDF samplers of [exp_sampler.py]

    A shallow embedding of the classes [CDFSampler], [ExpCDFSampler] and
    [SigmoidCDFSampler], and the properties of their sampling state and of
    the likelihood aggregates.

    Numbers.  The program computes on [np.float64].  A float is modelled by
    the real number it approximates: [np.exp], [np.log], [np.log1p] and [**]
    are [exp], [ln], [fun x => ln (1 + x)] and [Rpower], and [np.inf], which
    [generate_sample] returns as a value of its own, is a separate
    constructor.  Rounding, overflow and NaN are therefore outside this
    model; where the code reads "within floating tolerance" the model has
    equality, and a property that rounding can break is stated as a property
    over the real numbers.  [ln] and [Rpower] are read only at positive
    arguments in every theorem that depends on their value.  Module [F64]
    adds the range of a double (overflow to an infinity, underflow to zero,
    the arithmetic of infinities and NaN) for the one place where the range
    decides what [generate_sample] returns.

    Objects.  A sampler is a mutable Python object: every method is a
    function of the state [self], and a method that assigns to an attribute
    is a computation in the monad [M], which threads the object and keeps its
    last state when an exception is raised. *)

From Stdlib Require Import Reals Lra Lia List Bool ZArith.
Import ListNotations.
Local Open Scope R_scope.

(** ** Exceptions and results *)

Inductive exn : Set :=
| AssertionError
| IndexError
| ValueError.

Inductive result (A : Type) : Type :=
| Ok (a : A)
| Raise (e : exn).

Arguments Ok {A} a.
Arguments Raise {A} e.

(** A float returned by [generate_sample]: a finite number or [np.inf]. *)
Inductive npfloat : Type :=
| Finite (x : R)
| np_inf.

(** ** The pseudo-random generator

    [np.random.RandomState(seed)] is a deterministic generator: a seed fixes
    the whole sequence of doubles that successive [rand()] calls return.  The
    state is that sequence and the number of variates drawn so far. *)

Record RandomState : Type := mkRandomState {
  stream : nat -> R;
  drawn : nat
}.

Definition rand (g : RandomState) : R * RandomState :=
  (stream g (drawn g), mkRandomState (stream g) (S (drawn g))).

(** ** Arrays

    [vt] and the hidden state [h] are vectors of one dimension; [vt.dot(h)]
    is their inner product and raises [ValueError] when the shapes are not
    aligned.  This is numpy's [dot] on a [vt] of several components; a [vt]
    of one component is squeezed by the constructor to a scalar, which numpy
    multiplies into a hidden state of any length, so on hidden states of
    another length the theorems below either assume [vt] to have a length
    other than 1 or do not depend on the outcome of [dot]. *)

Fixpoint inner (a b : list R) : R :=
  match a, b with
  | x :: a', y :: b' => x * y + inner a' b'
  | _, _ => 0
  end.

Definition dot (a b : list R) : result R :=
  if Nat.eqb (length a) (length b) then Ok (inner a b) else Raise ValueError.

(** ** The sampler object

    [CDFSampler] itself leaves [cdf], [generate_sample], [int_u], [log_u] and
    [int_u_2] unimplemented, and its constructor ends in a call of
    [generate_sample]: no instance of the base class outlives its
    construction.  The instances are those of the two sub-classes. *)

Inductive klass : Set :=
| ExpCDFSampler
| SigmoidCDFSampler.

Record sampler : Type := mkSampler {
  cls : klass;
  seed : Z;
  vt : list R;
  wt : R;
  bt : R;
  w : R;
  Q : R;
  random_state : RandomState;
  u_unif : R;
  h : list R;
  c : R;
  t0 : R;
  k : R  (* set by SigmoidCDFSampler.__init__; no ExpCDFSampler method reads it *)
}.

Definition set_u_unif (v : R) (s : sampler) : sampler :=
  mkSampler (cls s) (seed s) (vt s) (wt s) (bt s) (w s) (Q s)
            (random_state s) v (h s) (c s) (t0 s) (k s).

Definition set_Q (v : R) (s : sampler) : sampler :=
  mkSampler (cls s) (seed s) (vt s) (wt s) (bt s) (w s) v
            (random_state s) (u_unif s) (h s) (c s) (t0 s) (k s).

Definition set_random_state (g : RandomState) (s : sampler) : sampler :=
  mkSampler (cls s) (seed s) (vt s) (wt s) (bt s) (w s) (Q s)
            g (u_unif s) (h s) (c s) (t0 s) (k s).

Definition set_h (v : list R) (s : sampler) : sampler :=
  mkSampler (cls s) (seed s) (vt s) (wt s) (bt s) (w s) (Q s)
            (random_state s) (u_unif s) v (c s) (t0 s) (k s).

Definition set_c (v : R) (s : sampler) : sampler :=
  mkSampler (cls s) (seed s) (vt s) (wt s) (bt s) (w s) (Q s)
            (random_state s) (u_unif s) (h s) v (t0 s) (k s).

Definition set_t0 (v : R) (s : sampler) : sampler :=
  mkSampler (cls s) (seed s) (vt s) (wt s) (bt s) (w s) (Q s)
            (random_state s) (u_unif s) (h s) (c s) v (k s).

(** ** The monad of methods: state of [self], and exceptions *)

Definition M (A : Type) : Type := sampler -> result A * sampler.

Definition ret {A : Type} (a : A) : M A := fun s => (Ok a, s).

Definition bind {A B : Type} (m : M A) (f : A -> M B) : M B :=
  fun s =>
    match m s with
    | (Ok a, s') => f a s'
    | (Raise e, s') => (Raise e, s')
    end.

Definition gets {A : Type} (f : sampler -> A) : M A := fun s => (Ok (f s), s).

Definition modify (f : sampler -> sampler) : M unit := fun s => (Ok tt, f s).

Definition lift {A : Type} (f : sampler -> result A) : M A := fun s => (f s, s).

(** [self.random_state.rand()] *)
Definition draw : M R :=
  fun s => let (u, g) := rand (random_state s) in (Ok u, set_random_state g s).

Declare Scope method_scope.
Delimit Scope method_scope with method.
Notation "x <- m ;; f" := (bind m (fun x => f))
  (at level 61, m at next level, right associativity) : method_scope.
Notation "m ;; f" := (bind m (fun _ => f))
  (at level 61, right associativity) : method_scope.

(** ** The closed forms of the two families *)

Module Exp.

(** [ExpCDFSampler.cdf] *)
Definition cdf (self : sampler) (t : R) : R :=
  1 - exp ((exp (c self) / w self) * (1 - exp (w self * (t - t0 self)))).

(** The local [D] of [ExpCDFSampler.generate_sample]. *)
Definition D (self : sampler) : R :=
  1 - (w self / exp (c self)) * ln ((1 - u_unif self) / Q self).

(** [ExpCDFSampler.generate_sample] *)
Definition generate_sample (self : sampler) : npfloat :=
  if Rle_dec (D self) 0 then np_inf
  else Finite (t0 self + (1 / w self) * ln (D self)).

Definition int_u (self : sampler) (dt ci : R) : R :=
  (1 / wt self) * (exp (ci + wt self * dt) - exp ci).

Definition log_u (self : sampler) (dt ci : R) : R :=
  ci + wt self * dt.

Definition int_u_2 (self : sampler) (dt ci : R) : R :=
  (1 / (2 * wt self)) * (exp (2 * ci + 2 * wt self * dt) - exp (2 * ci)).

End Exp.

Module Sigmoid.

(** [SigmoidCDFSampler.cdf] *)
Definition cdf (self : sampler) (t : R) : R :=
  let C := (1 + exp (c self)) / (1 + exp (c self + wt self * (t - t0 self))) in
  1 - Rpower C (k self / wt self).

(** The local [D] of [SigmoidCDFSampler.generate_sample]. *)
Definition D (self : sampler) : R :=
  (1 + exp (c self)) * Rpower ((1 - u_unif self) / Q self) (- k self / wt self) - 1.

(** [SigmoidCDFSampler.generate_sample] *)
Definition generate_sample (self : sampler) : npfloat :=
  if Rle_dec (D self) 0 then np_inf
  else Finite (t0 self + (ln (D self) - c self) / wt self).

Definition log_u (self : sampler) (dt ci : R) : R :=
  ln (1 / (1 + exp (- (ci + wt self * dt)))).

Definition int_u (self : sampler) (dt ci : R) : R :=
  (k self / wt self) * (ln (1 + exp (ci + wt self * dt)) - ln (1 + exp ci)).

Definition int_u_2 (self : sampler) (dt ci : R) : R :=
  ((k self ^ 2) / wt self) *
  (1 / (1 + exp (ci + wt self * dt)) + ln (1 + exp (ci + wt self * dt))
   - 1 / (1 + exp ci) - ln (1 + exp ci)).

End Sigmoid.

(** ** Method dispatch on the class of [self] *)

Definition cdf (self : sampler) (t : R) : R :=
  match cls self with
  | ExpCDFSampler => Exp.cdf self t
  | SigmoidCDFSampler => Sigmoid.cdf self t
  end.

(** The decay variable [D] that [generate_sample] tests. *)
Definition D (self : sampler) : R :=
  match cls self with
  | ExpCDFSampler => Exp.D self
  | SigmoidCDFSampler => Sigmoid.D self
  end.

Definition generate_sample (self : sampler) : npfloat :=
  match cls self with
  | ExpCDFSampler => Exp.generate_sample self
  | SigmoidCDFSampler => Sigmoid.generate_sample self
  end.

Definition int_u (self : sampler) (dt ci : R) : R :=
  match cls self with
  | ExpCDFSampler => Exp.int_u self dt ci
  | SigmoidCDFSampler => Sigmoid.int_u self dt ci
  end.

Definition log_u (self : sampler) (dt ci : R) : R :=
  match cls self with
  | ExpCDFSampler => Exp.log_u self dt ci
  | SigmoidCDFSampler => Sigmoid.log_u self dt ci
  end.

Definition int_u_2 (self : sampler) (dt ci : R) : R :=
  match cls self with
  | ExpCDFSampler => Exp.int_u_2 self dt ci
  | SigmoidCDFSampler => Sigmoid.int_u_2 self dt ci
  end.

(** ** The methods of [CDFSampler] *)

Local Open Scope method_scope.

(** [CDFSampler.reset_only_sample] *)
Definition reset_only_sample (cur_time : R) : M npfloat :=
  modify (fun s => set_c (c s + w s * (cur_time - t0 s)) s) ;;
  modify (set_t0 cur_time) ;;
  u <- draw ;;
  modify (set_u_unif u) ;;
  modify (set_Q 1) ;;
  gets generate_sample.

(** [CDFSampler.reset] *)
Definition reset (cur_time : R) (init_h : list R) (reset_sample : bool) : M npfloat :=
  (if reset_sample then
     u <- draw ;;
     modify (set_u_unif u) ;;
     modify (set_Q 1)
   else
     modify (fun s => set_Q (Q s * (1 - cdf s cur_time)) s)) ;;
  modify (set_h init_h) ;;
  p <- lift (fun s => dot (vt s) (h s)) ;;
  modify (fun s => set_c (p + bt s) s) ;;
  modify (set_t0 cur_time) ;;
  gets generate_sample.

(** [CDFSampler.register_event] *)
Definition register_event (time : R) (new_h : list R) (own_event : bool) : M npfloat :=
  reset time new_h own_event.

Definition get_last_hidden_state (self : sampler) : list R := h self.

Definition get_last_c (self : sampler) : R := c self.

Local Close Scope method_scope.

(** ** The aggregates over a trajectory *)

(** Python's [sum] of a finite iterable of floats: a left fold from [0]. *)
Definition py_sum (xs : list R) : R := fold_left Rplus xs 0.

(** [xs[-1]]: the last item, [IndexError] on an empty list. *)
Fixpoint item_m1 {A : Type} (xs : list A) : result A :=
  match xs with
  | [] => Raise IndexError
  | [x] => Ok x
  | _ :: xs' => item_m1 xs'
  end.

(** [zip] of three lists stops at the shortest of them. *)
Definition zip3 {A B C : Type} (xs : list A) (ys : list B) (zs : list C)
  : list (A * B * C) :=
  combine (combine xs ys) zs.

(** [CDFSampler.calc_quad_loss] *)
Definition calc_quad_loss (self : sampler) (event_time_deltas c_is : list R) : R :=
  py_sum (map (fun p => int_u_2 self (fst p) (snd p))
              (combine event_time_deltas c_is)).

(** [CDFSampler.calc_LL] *)
Definition calc_LL (self : sampler) (event_time_deltas c_is : list R)
           (is_own_event : list bool) : result R :=
  match item_m1 is_own_event with
  | Raise e => Raise e
  | Ok true => Raise AssertionError
  | Ok false =>
      let LL_log :=
        py_sum (map (fun p => log_u self (fst (fst p)) (snd (fst p)))
                    (filter (fun p => snd p)
                            (zip3 event_time_deltas c_is is_own_event))) in
      let LL_int :=
        py_sum (map (fun p => int_u self (fst p) (snd p))
                    (combine event_time_deltas c_is)) in
      Ok (LL_log - LL_int)
  end.

(** ** Construction, and sequences of calls *)

Section Construction.

(** [np.random.RandomState]: the sequence of doubles each seed yields. *)
Variable mt19937 : Z -> nat -> R.

(** [np.random.RandomState(seed)] accepts the seeds from [0] to [2^32 - 1]
    and raises [ValueError] on any other integer. *)
Definition seed_ok (seed_ : Z) : bool :=
  ((0 <=? seed_) && (seed_ <? 2 ^ 32))%Z.

(** [CDFSampler.__init__].  [u_unif], [h], [c] and [t0] do not exist before
    the call of [reset], which, with [reset_sample=True], assigns each of
    them before anything reads it; the values they are given here are never
    observed. *)
Definition CDFSampler_init (kl : klass) (k_ : R) (vt_ : list R) (wt_ bt_ : R)
           (init_h : list R) (t_min : R) (seed_ : Z) : result sampler :=
  if seed_ok seed_ then
    let self := mkSampler kl seed_ vt_ wt_ bt_ wt_ 1
                          (mkRandomState (mt19937 seed_) 0) 0 [] 0 0 k_ in
    match reset t_min init_h true self with
    | (Ok _, self') => Ok self'
    | (Raise e, _) => Raise e
    end
  else Raise ValueError.


(** [SigmoidCDFSampler.__init__] *)
Definition SigmoidCDFSampler_init (vt_ : list R) (wt_ bt_ : R) (init_h : list R)
           (t_min : R) (seed_ : Z) (k_ : R) : result sampler :=
  CDFSampler_init SigmoidCDFSampler k_ vt_ wt_ bt_ init_h t_min seed_.

End Construction.

(** A call of one of the three state-changing methods. *)
Inductive call : Type :=
| call_reset (cur_time : R) (init_h : list R) (reset_sample : bool)
| call_register_event (time : R) (new_h : list R) (own_event : bool)
| call_reset_only_sample (cur_time : R).

Definition call_time (op : call) : R :=
  match op with
  | call_reset t _ _ => t
  | call_register_event t _ _ => t
  | call_reset_only_sample t => t
  end.

Definition exec (op : call) : M npfloat :=
  match op with
  | call_reset t hs b => reset t hs b
  | call_register_event t hs b => register_event t hs b
  | call_reset_only_sample t => reset_only_sample t
  end.

(** The object after a sequence of calls; a call that raises leaves the
    attributes it had already assigned. *)
Fixpoint run (ops : list call) (s : sampler) : sampler :=
  match ops with
  | [] => s
  | op :: ops' => run ops' (snd (exec op s))
  end.




(** An operation drew a fresh uniform variate when the generator advanced. *)
Definition drew_fresh (before after : sampler) : Prop :=
  drawn (random_state after) <> drawn (random_state before).

(** Valid rate parameters: a nonzero rate, the same in [w] and [wt] as the
    constructor leaves them, and, for the sigmoid family, a positive scale. *)
Definition valid_rates (s : sampler) : Prop :=
  w s = wt s /\ wt s <> 0 /\ (cls s = SigmoidCDFSampler -> 0 < k s).

(** ** The state [reset] leaves

    The attributes after the branch on [reset_sample], before [h], [c] and
    [t0] are assigned. *)
Definition after_branch (cur_time : R) (reset_sample : bool) (s : sampler) : sampler :=
  if reset_sample
  then set_Q 1 (set_u_unif (fst (rand (random_state s)))
                           (set_random_state (snd (rand (random_state s))) s))
  else set_Q (Q s * (1 - cdf s cur_time)) s.

(** ** The trajectory of a sequence of calls

    For each call, the time elapsed since the anchor and the bias in force
    over that interval: the entries [calc_LL] and [calc_quad_loss] expect in
    [event_time_deltas] and [c_is]. *)
Fixpoint intervals (ops : list call) (s : sampler) : list (R * R) :=
  match ops with
  | [] => []
  | op :: ops' => (call_time op - t0 s, c s) :: intervals ops' (snd (exec op s))
  end.

(** A call that keeps the variate ([reset_sample] or [own_event] false), on
    a hidden state of the dimension of [vt]. *)
Definition conditioning (s : sampler) (op : call) : Prop :=
  match op with
  | call_reset _ hs false => length hs = length (vt s)
  | call_register_event _ hs false => length hs = length (vt s)
  | _ => False
  end.

(** ** Calls made in time

    [timely ops s]: every call of [ops] comes with a hidden state of the
    dimension of [vt], no earlier than the anchor and no later than the
    candidate pending when it is made.  [answered_ahead ops s]: every call
    returns, and its candidate is [np.inf] or not before the time of the
    call. *)


(** The variate is below 1, [Q] is positive and the tail probability
    [(1 - u) / Q] is at most 1; the generator yields doubles in [0, 1). *)
Definition tail_in_range (s : sampler) : Prop :=
  u_unif s < 1 /\ 0 < Q s /\ 1 - u_unif s <= Q s
  /\ forall n, 0 <= stream (random_state s) n < 1.

Definition not_before (t : R) (candidate : npfloat) : Prop :=
  match candidate with
  | Finite T => t <= T
  | np_inf => True
  end.



(** ** The broadcasters

    [ExpRecurrentBroadcasterMP] and [ExpRecurrentBroadcaster] share the body
    of [get_next_interval].  What they inherit from [OM.Broadcaster] and the
    simulation state they are attached to lie outside this file: the state
    is a type [State] with its two methods, [last_self_event_time] is an
    attribute the base class maintains, and [update_hidden_state], which
    reads that state (and, in one class, runs the trainer's session), is a
    function that returns a hidden state or raises. *)

Record Event : Type := mkEvent {
  ev_src_id : Z;
  ev_time_delta : R;
  ev_cur_time : R
}.

(** What a call of [get_next_interval] ends in: a value, an exception of
    the sampler or of the assertion, or an exception raised by
    [update_hidden_state]. *)
Inductive outcome : Type :=
| Returned (v : npfloat)
| Raised (e : exn)
| RaisedOutside.

(** [next_post_time - self.last_self_event_time] *)
Definition npfloat_sub (a : npfloat) (x : R) : npfloat :=
  match a with
  | Finite t => Finite (t - x)
  | np_inf => np_inf
  end.

(** [next_delta >= 0] *)
Definition npfloat_nonneg (a : npfloat) : bool :=
  match a with
  | Finite d => if Rle_dec 0 d then true else false
  | np_inf => true
  end.

Section Broadcaster.

Variable State : Type.
Variable set_track_src_id : Z -> list Z -> State -> State.
Variable apply_event : option Event -> State -> State.

Record broadcaster : Type := mkBroadcaster {
  bc_src_id : Z;
  bc_sink_ids : list Z;
  bc_init : bool;
  bc_cur_h : list R;
  bc_exp_sampler : sampler;
  bc_state : State;
  bc_last_self_event_time : R
}.

Variable update_hidden_state : broadcaster -> Z -> R -> option (list R).

(** [get_next_interval] *)
Definition get_next_interval (event : option Event) (self : broadcaster)
  : outcome * broadcaster :=
  let self1 :=
    if bc_init self then self
    else mkBroadcaster (bc_src_id self) (bc_sink_ids self) true (bc_cur_h self)
                       (bc_exp_sampler self)
                       (set_track_src_id (bc_src_id self) (bc_sink_ids self)
                                         (bc_state self))
                       (bc_last_self_event_time self) in
  let self2 :=
    mkBroadcaster (bc_src_id self1) (bc_sink_ids self1) (bc_init self1)
                  (bc_cur_h self1) (bc_exp_sampler self1)
                  (apply_event event (bc_state self1))
                  (bc_last_self_event_time self1) in
  match event with
  | None => (Returned (generate_sample (bc_exp_sampler self2)), self2)
  | Some ev =>
      match update_hidden_state self2 (ev_src_id ev) (ev_time_delta ev) with
      | None => (RaisedOutside, self2)
      | Some new_h =>
          let out := register_event (ev_cur_time ev) new_h
                                    (Z.eqb (ev_src_id ev) (bc_src_id self2))
                                    (bc_exp_sampler self2) in
          let self3 :=
            mkBroadcaster (bc_src_id self2) (bc_sink_ids self2) (bc_init self2)
                          new_h (snd out) (bc_state self2)
                          (bc_last_self_event_time self2) in
          match fst out with
          | Raise e => (Raised e, self3)
          | Ok next_post_time =>
              let next_delta :=
                npfloat_sub next_post_time (bc_last_self_event_time self3) in
              if npfloat_nonneg next_delta then (Returned next_delta, self3)
              else (Raised AssertionError, self3)
          end
      end
  end.

End Broadcaster.

(** ** The aggregates, as sums over indices

    [sum_below n f] is [f 0 + ... + f (n - 1)]; the three sums below range
    over the first [n] intervals of a trajectory, read by index. *)

Fixpoint sum_below (n : nat) (f : nat -> R) : R :=
  match n with
  | O => 0
  | S m => sum_below m f + f m
  end.

Definition log_sum_over (self : sampler) (dts cs : list R) (flags : list bool)
           (n : nat) : R :=
  sum_below n (fun i => if nth i flags false
                        then log_u self (nth i dts 0) (nth i cs 0) else 0).

Definition int_sum_over (self : sampler) (dts cs : list R) (n : nat) : R :=
  sum_below n (fun i => int_u self (nth i dts 0) (nth i cs 0)).

Definition int2_sum_over (self : sampler) (dts cs : list R) (n : nat) : R :=
  sum_below n (fun i => int_u_2 self (nth i dts 0) (nth i cs 0)).

(** ** Fixed-point enclosures of [exp]

    Decimal bounds on the closed forms are computed on integers scaled by
    [10^15]: [sq_chain n a] squares [a] [n] times, rounding down. *)

Definition scale : Z := 10 ^ 15.

Fixpoint sq_chain (n : nat) (a : Z) : Z :=
  match n with
  | O => a
  | S n' => let b := sq_chain n' a in (b * b / scale)%Z
  end.

(** ** Concrete objects used to evaluate the methods *)

(** An exponential sampler with [w = 1], [c = 0], [u_unif = 1/2], [Q = 1],
    anchored at [t]. *)
Definition exp_unit (t : R) : sampler :=
  mkSampler ExpCDFSampler 42 [1] 1 0 1 1
            (mkRandomState (fun _ => 1 / 2) 1) (1 / 2) [0] 0 t 0.

(** A sigmoid sampler with [k = 2], [w = 1], [c = 0], [u_unif = 1/2], [Q = 1],
    anchored at [0]. *)
Definition sigmoid_k2 : sampler :=
  mkSampler SigmoidCDFSampler 42 [1] 1 0 1 1
            (mkRandomState (fun _ => 1 / 2) 1) (1 / 2) [0] 0 0 2.

(** A sigmoid sampler with the default scale [k = 1], [w = 1], [c = 0],
    [u_unif = 1/2], [Q = 1], anchored at [0]. *)
Definition sigmoid_unit : sampler :=
  mkSampler SigmoidCDFSampler 42 [1] 1 0 1 1
            (mkRandomState (fun _ => 1 / 2) 1) (1 / 2) [0] 0 0 1.

(** An exponential sampler over hidden states of two components, with
    [w = 1], [c = 0], [u_unif = 1/2], [Q = 1], anchored at [0]. *)
Definition exp_pair : sampler :=
  mkSampler ExpCDFSampler 42 [1; 1] 1 0 1 1
            (mkRandomState (fun _ => 1 / 2) 1) (1 / 2) [0; 0] 0 0 0.

(** An exponential sampler with a negative rate [w = -1], [c = -20] and
    [u_unif = 1 - exp (-30)]. *)
Definition exp_decaying : sampler :=
  mkSampler ExpCDFSampler 42 [1] (-1) (-20) (-1) 1
            (mkRandomState (fun _ => 1 - exp (-30)) 1) (1 - exp (-30)) [0] (-20) 0 0.

(** ** Doubles by their range

    The real-number model has no overflow.  Where the outcome of
    [generate_sample] is decided by it, a double is a real number within the
    range of [np.float64], or an infinity, or NaN: a result of magnitude
    [2^1024] or more becomes an infinity and a result of magnitude at most
    [2^-1075], half the smallest subnormal, becomes zero.  Rounding inside
    the range is left out.  The operations follow IEEE 754 as numpy applies
    it to [np.float64] (division by zero gives an infinity, with a warning,
    not an exception); a zero is the positive zero, the only one that occurs
    here. *)

Module F64.

Inductive double : Type :=
| num (x : R)
| pinf
| ninf
| nan.

Definition huge : R := 2 ^ 1024.

Definition tiny : R := / 2 ^ 1075.

Definition fit (x : R) : double :=
  if Rle_dec huge x then pinf
  else if Rle_dec x (- huge) then ninf
  else if Rle_dec (Rabs x) tiny then num 0
  else num x.

Definition neg (a : double) : double :=
  match a with
  | num x => num (- x)
  | pinf => ninf
  | ninf => pinf
  | nan => nan
  end.

Definition add (a b : double) : double :=
  match a, b with
  | nan, _ | _, nan => nan
  | num x, num y => fit (x + y)
  | pinf, ninf | ninf, pinf => nan
  | pinf, _ | _, pinf => pinf
  | ninf, _ | _, ninf => ninf
  end.

Definition sub (a b : double) : double := add a (neg b).

(** An infinity times, or over, a finite number [y]. *)
Definition signed (inf : double) (y : R) : double :=
  if Rlt_dec 0 y then inf
  else if Rlt_dec y 0 then neg inf
  else nan.

Definition mul (a b : double) : double :=
  match a, b with
  | nan, _ | _, nan => nan
  | num x, num y => fit (x * y)
  | num x, pinf => signed pinf x
  | num x, ninf => signed ninf x
  | pinf, num y => signed pinf y
  | ninf, num y => signed ninf y
  | pinf, pinf | ninf, ninf => pinf
  | pinf, ninf | ninf, pinf => nan
  end.

Definition div (a b : double) : double :=
  match a, b with
  | nan, _ | _, nan => nan
  | num x, num y =>
      if Req_dec_T y 0 then signed pinf x else fit (x / y)
  | num _, pinf | num _, ninf => num 0
  | pinf, num y => if Rle_dec 0 y then pinf else ninf
  | ninf, num y => if Rle_dec 0 y then ninf else pinf
  | _, _ => nan
  end.

(** [np.exp] *)
Definition fexp (a : double) : double :=
  match a with
  | num x => fit (exp x)
  | pinf => pinf
  | ninf => num 0
  | nan => nan
  end.

(** [np.log] *)
Definition flog (a : double) : double :=
  match a with
  | num x => if Rlt_dec 0 x then fit (ln x)
             else if Req_dec_T x 0 then ninf else nan
  | pinf => pinf
  | ninf => nan
  | nan => nan
  end.

(** [D <= 0] *)
Definition le0 (a : double) : bool :=
  match a with
  | num x => if Rle_dec x 0 then true else false
  | ninf => true
  | pinf => false
  | nan => false
  end.

(** The local [D] of [ExpCDFSampler.generate_sample], on doubles. *)
Definition D (self : sampler) : double :=
  sub (num 1)
      (mul (div (num (w self)) (fexp (num (c self))))
           (flog (div (sub (num 1) (num (u_unif self))) (num (Q self))))).

(** [ExpCDFSampler.generate_sample], on doubles. *)
Definition generate_sample (self : sampler) : double :=
  if le0 (D self) then pinf
  else add (num (t0 self)) (mul (div (num 1) (num (w self))) (flog (D self))).

End F64.

(** An exponential sampler with [w = 1], [u_unif = 1/2], [Q = 1] and a bias
    [c = -2000], whose exponential underflows. *)
Definition exp_underflow : sampler :=
  mkSampler ExpCDFSampler 42 [1] 1 (-2000) 1 1
            (mkRandomState (fun _ => 1 / 2) 1) (1 / 2) [0] (-2000) 0 0.

(** * Properties *)

(** ** Unfolding the methods *)

Lemma reset_unfold (cur_time : R) (init_h : list R) (reset_sample : bool) (s : sampler) :
  reset cur_time init_h reset_sample s =
  let s1 := set_h init_h (after_branch cur_time reset_sample s) in
  match dot (vt s) init_h with
  | Ok p => let s2 := set_t0 cur_time (set_c (p + bt s) s1) in
            (Ok (generate_sample s2), s2)
  | Raise e => (Raise e, s1)
  end.
Proof.
  unfold reset, after_branch, bind, modify, gets, lift, draw.
  destruct reset_sample; simpl; destruct (dot (vt s) init_h); reflexivity.
Qed.

Lemma dot_aligned (a b : list R) :
  length b = length a -> dot a b = Ok (inner a b).
Proof.
  intros E. unfold dot. rewrite E, Nat.eqb_refl. reflexivity.
Qed.

Lemma reset_only_sample_unfold (cur_time : R) (s : sampler) :
  reset_only_sample cur_time s =
  let s' := mkSampler (cls s) (seed s) (vt s) (wt s) (bt s) (w s) 1
                      (snd (rand (random_state s)))
                      (fst (rand (random_state s))) (h s)
                      (c s + w s * (cur_time - t0 s)) cur_time (k s) in
  (Ok (generate_sample s'), s').
Proof. reflexivity. Qed.

(** ** [reset] and [register_event] *)

(** C3.  [reset(cur_time, new_h, reset_sample)], on a hidden state of the
    projection's dimension: with [reset_sample] a new uniform variate is
    drawn and [Q] becomes 1; without it the variate (and the generator) is
    kept and [Q] is multiplied by [1 - cdf(cur_time)], the CDF being that of
    the state before the call (its [c] and its [t0]); in both cases [c]
    becomes [vt . new_h + bt], [t0] becomes [cur_time], and the value returned
    is [generate_sample()] of the updated object. *)
Theorem reset_spec (s : sampler) (cur_time : R) (new_h : list R) (reset_sample : bool) :
  length new_h = length (vt s) ->
  let out := reset cur_time new_h reset_sample s in
  let s' := snd out in
  (if reset_sample
   then u_unif s' = stream (random_state s) (drawn (random_state s))
        /\ drew_fresh s s'
        /\ Q s' = 1
   else u_unif s' = u_unif s
        /\ random_state s' = random_state s
        /\ Q s' = Q s * (1 - cdf s cur_time))
  /\ c s' = inner (vt s) new_h + bt s
  /\ t0 s' = cur_time
  /\ h s' = new_h
  /\ fst out = Ok (generate_sample s').
Proof.
  intros E out s'. subst s' out.
  rewrite reset_unfold, (dot_aligned _ _ E). cbn zeta.
  unfold after_branch, drew_fresh.
  destruct reset_sample; simpl; repeat split; auto.
Qed.

Lemma reset_spec_witness :
  let s := exp_unit 0 in
  let s' := snd (reset 2 [3] false s) in
  Q s' = Q s * (1 - cdf s 2) /\ c s' = inner (vt s) [3] + bt s /\ t0 s' = 2.
Proof.
  intros s s'.
  pose proof (reset_spec s 2 [3] false eq_refl) as H.
  cbv zeta in H. destruct H as [[_ [_ HQ]] [Hc [Ht _]]].
  subst s'. repeat split; assumption.
Defined.

(** C2, as the code has it.  A time earlier than the anchor is not rejected:
    neither [reset] nor [register_event] raises [AssertionError], and on a
    hidden state of the projection's dimension they complete, move the
    anchor back to that time and return the candidate of [generate_sample]. *)
Theorem reset_accepts_earlier_time (s : sampler) (time : R) (new_h : list R)
        (flag : bool) :
  time < t0 s ->
  fst (reset time new_h flag s) <> Raise AssertionError
  /\ fst (register_event time new_h flag s) <> Raise AssertionError
  /\ (length new_h = length (vt s) ->
      exists s', reset time new_h flag s = (Ok (generate_sample s'), s')
                 /\ register_event time new_h flag s = (Ok (generate_sample s'), s')
                 /\ t0 s' = time).
Proof.
  intros _. unfold register_event. rewrite reset_unfold. cbn zeta.
  unfold dot. destruct (Nat.eqb_spec (length (vt s)) (length new_h)) as [E | NE].
  - simpl. repeat split; try discriminate.
    intros _. eexists. repeat split.
  - simpl. repeat split; try discriminate.
    intros E. congruence.
Qed.

Lemma reset_accepts_earlier_time_witness :
  exists s', reset 0 [0] false (exp_unit 1) = (Ok (generate_sample s'), s')
             /\ t0 s' = 0.
Proof.
  assert (L : 0 < t0 (exp_unit 1)) by (simpl; lra).
  destruct (reset_accepts_earlier_time (exp_unit 1) 0 [0] false L)
    as [_ [_ H]].
  destruct (H eq_refl) as [s' [H1 [_ H3]]].
  exists s'. split; assumption.
Defined.

(** C2, the claim refuted: an exponential sampler anchored at [t0 = 1] takes
    [reset] and [register_event] at time [0] without raising anything. *)
Lemma reset_earlier_time_not_rejected :
  0 < t0 (exp_unit 1)
  /\ (forall e, fst (reset 0 [0] false (exp_unit 1)) <> Raise e)
  /\ (forall e, fst (register_event 0 [0] true (exp_unit 1)) <> Raise e)
  /\ t0 (snd (reset 0 [0] false (exp_unit 1))) = 0.
Proof.
  unfold register_event. rewrite !reset_unfold. simpl.
  repeat split; try discriminate. lra.
Qed.

(** ** [reset_only_sample] *)

(** C9.  [reset_only_sample(cur_time)] advances the cached bias to
    [c + w * (cur_time - t0)], sets [t0] to [cur_time] and [Q] to 1, draws a
    new uniform variate, returns the candidate of [generate_sample] on the
    updated object, and leaves the hidden state [h] (and the parameters) as
    they were. *)
Theorem reset_only_sample_spec (s : sampler) (cur_time : R) :
  let out := reset_only_sample cur_time s in
  let s' := snd out in
  c s' = c s + w s * (cur_time - t0 s)
  /\ t0 s' = cur_time
  /\ Q s' = 1
  /\ u_unif s' = stream (random_state s) (drawn (random_state s))
  /\ drew_fresh s s'
  /\ fst out = Ok (generate_sample s')
  /\ h s' = h s
  /\ (cls s', vt s', wt s', bt s', w s', k s') = (cls s, vt s, wt s, bt s, w s, k s).
Proof.
  intros out s'. subst s' out. rewrite reset_only_sample_unfold.
  unfold drew_fresh. simpl. repeat split; auto.
Qed.

(** ** [generate_sample] *)

Lemma generate_sample_cases (s : sampler) :
  (D s <= 0 /\ generate_sample s = np_inf)
  \/ (0 < D s /\ exists t, generate_sample s = Finite t).
Proof.
  unfold generate_sample, D, Exp.generate_sample, Sigmoid.generate_sample.
  destruct (cls s).
  - destruct (Rle_dec (Exp.D s) 0); [left | right]; split; eauto; lra.
  - destruct (Rle_dec (Sigmoid.D s) 0); [left | right]; split; eauto; lra.
Qed.

Lemma exp_generate_sample_finite (s : sampler) :
  cls s = ExpCDFSampler -> 0 < Exp.D s ->
  generate_sample s = Finite (t0 s + (1 / w s) * ln (Exp.D s)).
Proof.
  intros E HD. unfold generate_sample, Exp.generate_sample. rewrite E.
  destruct (Rle_dec (Exp.D s) 0); [lra | reflexivity].
Qed.

Lemma ln_half : ln (1 / 2) = - ln 2.
Proof.
  replace (1 / 2) with (/ 2) by lra. apply ln_Rinv. lra.
Qed.

Lemma ln_2_pos : 0 < ln 2.
Proof.
  rewrite <- ln_1. apply ln_increasing; lra.
Qed.

(** *** Decimal bounds on [exp] and [ln] *)

Lemma scale_pos : 0 < IZR scale.
Proof. apply IZR_lt. reflexivity. Qed.

Lemma floor_div_le (a d : Z) :
  (0 < d)%Z -> IZR (a / d) * IZR d <= IZR a.
Proof.
  intros Hd. rewrite <- mult_IZR. apply IZR_le.
  rewrite Z.mul_comm. apply Z.mul_div_le. assumption.
Qed.

Lemma sq_chain_lower (n : nat) (a : Z) (x : R) :
  (0 <= a)%Z -> IZR a / IZR scale <= exp x ->
  (0 <= sq_chain n a)%Z /\ IZR (sq_chain n a) / IZR scale <= exp (2 ^ n * x).
Proof.
  intros Ha Hx. induction n as [| n [IH0 IH]].
  - simpl. split; [assumption |]. replace (1 * x) with x by ring. assumption.
  - cbn [sq_chain]. set (b := sq_chain n a) in *.
    assert (Hs : (0 < scale)%Z) by reflexivity.
    split.
    + apply Z.div_pos; [| assumption]. apply Z.mul_nonneg_nonneg; assumption.
    + pose proof scale_pos as Sp.
      assert (Hb : 0 <= IZR b) by (apply IZR_le; assumption).
      pose proof (floor_div_le (b * b) scale Hs) as Hq. rewrite mult_IZR in Hq.
      replace (2 ^ S n * x) with (2 ^ n * x + 2 ^ n * x) by (simpl; ring).
      rewrite exp_plus.
      set (e := exp (2 ^ n * x)) in *.
      assert (Hbe : 0 <= IZR b / IZR scale).
      { apply Rmult_le_pos; [assumption |]. left. apply Rinv_0_lt_compat. assumption. }
      apply Rle_trans with (IZR b / IZR scale * (IZR b / IZR scale));
        [| apply Rmult_le_compat; assumption].
      apply Rmult_le_reg_r with (IZR scale); [assumption |].
      apply Rmult_le_reg_r with (IZR scale); [assumption |].
      replace (IZR (b * b / scale) / IZR scale * IZR scale * IZR scale)
        with (IZR (b * b / scale) * IZR scale) by (field; lra).
      replace (IZR b / IZR scale * (IZR b / IZR scale) * IZR scale * IZR scale)
        with (IZR b * IZR b) by (field; lra).
      assumption.
Qed.

(** [lo / scale <= exp (p / q)], checked by squaring [1 + p / (q * 2^n)]
    [n] times in fixed point. *)
Lemma exp_lower_bound (n : nat) (p q lo : Z) :
  (0 < q)%Z ->
  (0 <= scale + p * scale / (q * 2 ^ Z.of_nat n))%Z ->
  (lo <= sq_chain n (scale + p * scale / (q * 2 ^ Z.of_nat n)))%Z ->
  IZR lo / IZR scale <= exp (IZR p / IZR q).
Proof.
  intros Hq Ha Hlo.
  set (d := (q * 2 ^ Z.of_nat n)%Z) in *.
  assert (Hd : (0 < d)%Z).
  { subst d. apply Z.mul_pos_pos; [assumption | apply Z.pow_pos_nonneg; lia]. }
  set (a := (scale + p * scale / d)%Z) in *.
  pose proof scale_pos as Sp.
  assert (Hdr : 0 < IZR d) by (apply IZR_lt; assumption).
  assert (Hqr : 0 < IZR q) by (apply IZR_lt; assumption).
  assert (H2 : IZR d = IZR q * 2 ^ n).
  { subst d. rewrite mult_IZR. f_equal. rewrite <- pow_IZR. reflexivity. }
  assert (H0 : IZR a / IZR scale <= exp (IZR p / IZR d)).
  { apply Rle_trans with (1 + IZR p / IZR d); [| apply exp_ineq1_le].
    subst a. rewrite plus_IZR.
    pose proof (floor_div_le (p * scale) d Hd) as Hfl. rewrite mult_IZR in Hfl.
    apply Rmult_le_reg_r with (IZR scale); [assumption |].
    apply Rmult_le_reg_r with (IZR d); [assumption |].
    replace ((IZR scale + IZR (p * scale / d)) / IZR scale * IZR scale * IZR d)
      with (IZR scale * IZR d + IZR (p * scale / d) * IZR d) by (field; lra).
    replace ((1 + IZR p / IZR d) * IZR scale * IZR d)
      with (IZR scale * IZR d + IZR p * IZR scale) by (field; lra).
    lra. }
  destruct (sq_chain_lower n a _ Ha H0) as [_ H].
  replace (2 ^ n * (IZR p / IZR d)) with (IZR p / IZR q) in H.
  2:{ rewrite H2. field. split; [apply pow_nonzero; lra | lra]. }
  apply Rle_trans with (IZR (sq_chain n a) / IZR scale); [| assumption].
  apply Rmult_le_compat_r; [left; apply Rinv_0_lt_compat; assumption |].
  apply IZR_le. assumption.
Qed.

Ltac exp_lower n p q lo :=
  let H := fresh "H" in
  pose proof (exp_lower_bound n p q lo) as H;
  unfold scale in H;
  let v := eval vm_compute in (IZR lo / IZR (10 ^ 15)) in
  change (IZR lo / IZR (10 ^ 15)) with v in H;
  apply Rlt_le_trans with (2 := H ltac:(reflexivity)
                                  ltac:(vm_compute; discriminate)
                                  ltac:(vm_compute; discriminate));
  lra.

Lemma exp_bound_a : / 2 < exp (-6925 / 10000).
Proof. exp_lower 12%nat (-6925)%Z 10000%Z 500000000000001%Z. Qed.

Lemma exp_bound_b : 2 < exp (694 / 1000).
Proof. exp_lower 12%nat 694%Z 1000%Z 2000000000000001%Z. Qed.

Lemma exp_bound_c : / (16925 / 10000) < exp (-526 / 1000).
Proof. exp_lower 12%nat (-526)%Z 1000%Z 590843000000000%Z. Qed.

Lemma exp_bound_d : 1694 / 1000 < exp (528 / 1000).
Proof. exp_lower 12%nat 528%Z 1000%Z 1694000000000001%Z. Qed.

Lemma exp_neg_upper (x b : R) : 0 < b -> / b < exp (- x) -> exp x < b.
Proof.
  intros Hb H.
  assert (E : exp x * exp (- x) = 1).
  { rewrite <- exp_plus, Rplus_opp_r. apply exp_0. }
  pose proof (exp_pos x) as Px.
  assert (Hy : 1 < exp (- x) * b).
  { rewrite <- (Rinv_l b) by lra. apply Rmult_lt_compat_r; assumption. }
  replace b with (exp x * exp (- x) * b) at 1 by (rewrite E; ring).
  rewrite Rmult_assoc. rewrite <- (Rmult_1_r (exp x)) at 1.
  apply Rmult_lt_compat_l; assumption.
Qed.

Lemma ln_2_bounds : 6925 / 10000 < ln 2 < 694 / 1000.
Proof.
  split; apply exp_lt_inv; rewrite exp_ln by lra.
  - apply exp_neg_upper; [lra |].
    replace (- (6925 / 10000)) with (-6925 / 10000) by lra. apply exp_bound_a.
  - apply exp_bound_b.
Qed.

Lemma ln_1_plus_ln_2_bounds : 526 / 1000 < ln (1 + ln 2) < 528 / 1000.
Proof.
  pose proof ln_2_bounds as [L U].
  split.
  - rewrite <- (ln_exp (526 / 1000)). apply ln_increasing; [apply exp_pos |].
    apply Rlt_trans with (16925 / 10000); [| lra].
    apply exp_neg_upper; [lra |].
    replace (- (526 / 1000)) with (-526 / 1000) by lra. apply exp_bound_c.
  - rewrite <- (ln_exp (528 / 1000)). apply ln_increasing; [lra |].
    apply Rlt_trans with (1694 / 1000); [lra | apply exp_bound_d].
Qed.

(** C4.  For the exponential family, with
    [D = 1 - (w / exp c) * ln ((1 - u) / Q)], [generate_sample] returns
    [t0 + (1 / w) * ln D] whenever [D > 0]; with [w = 1], [c = 0],
    [u_unif = 1/2] and [Q = 1] it returns [t0 + ln (1 - ln (1/2))], and that
    offset lies within [0.001] of [0.527]. *)
Theorem exp_generate_sample_spec (s : sampler) :
  cls s = ExpCDFSampler ->
  let d := 1 - (w s / exp (c s)) * ln ((1 - u_unif s) / Q s) in
  (0 < d -> generate_sample s = Finite (t0 s + (1 / w s) * ln d))
  /\ (w s = 1 -> c s = 0 -> u_unif s = 1 / 2 -> Q s = 1 ->
      generate_sample s = Finite (t0 s + ln (1 - ln (1 / 2))))
  /\ Rabs (ln (1 - ln (1 / 2)) - 527 / 1000) < 1 / 1000.
Proof.
  intros E d. split; [| split].
  - intros Hd. apply exp_generate_sample_finite; assumption.
  - intros Hw Hc Hu HQ.
    assert (Hd : d = 1 - ln (1 / 2)).
    { subst d. rewrite Hw, Hc, Hu, HQ, exp_0.
      replace ((1 - 1 / 2) / 1) with (1 / 2) by lra. lra. }
    assert (Hpos : 0 < d).
    { rewrite Hd, ln_half. pose proof ln_2_pos. lra. }
    rewrite (exp_generate_sample_finite s E Hpos).
    change (Exp.D s) with d. rewrite Hd, Hw. f_equal. lra.
  - rewrite ln_half. replace (1 - - ln 2) with (1 + ln 2) by ring.
    pose proof ln_1_plus_ln_2_bounds as [L U].
    apply Rabs_def1; lra.
Qed.

Lemma exp_generate_sample_spec_witness :
  generate_sample (exp_unit 3) = Finite (3 + ln (1 - ln (1 / 2))).
Proof.
  exact (proj1 (proj2 (exp_generate_sample_spec (exp_unit 3) eq_refl))
               eq_refl eq_refl eq_refl eq_refl).
Defined.

(** C7, as the code has it.  With the decay variable
    [D = 1 - (w / exp c) * ln ((1 - u) / Q)] of the exponential family and
    [D = (1 + exp c) * ((1 - u) / Q) ** (- k / wt) - 1] of the sigmoid
    family, [generate_sample] returns [np.inf] whenever [D <= 0], and for
    [D > 0] the value of [t0 + (1 / w) * ln D], respectively
    [t0 + (ln D - c) / wt]; [np.inf] is an ordinary return value, which
    [reset] and [register_event] hand on as their result; and in the
    exponential family [D <= 0] is reached, here with the nonzero rate
    [w = -1], a bias [c = -20] and a variate [u = 1 - exp (-30)], [Q = 1].
    That [np.inf] is returned only when [D <= 0] is not part of it: in
    doubles the value for [D > 0] is infinite too once [D] has overflowed. *)
Theorem generate_sample_degenerate (s : sampler) :
  let decay := fun s : sampler =>
    match cls s with
    | ExpCDFSampler => 1 - (w s / exp (c s)) * ln ((1 - u_unif s) / Q s)
    | SigmoidCDFSampler =>
        (1 + exp (c s)) * Rpower ((1 - u_unif s) / Q s) (- k s / wt s) - 1
    end in
  (decay s <= 0 -> generate_sample s = np_inf)
  /\ (0 < decay s ->
      generate_sample s
      = Finite match cls s with
               | ExpCDFSampler => t0 s + (1 / w s) * ln (decay s)
               | SigmoidCDFSampler => t0 s + (ln (decay s) - c s) / wt s
               end)
  /\ (forall cur_time new_h flag,
        length new_h = length (vt s) ->
        decay (snd (reset cur_time new_h flag s)) <= 0 ->
        fst (reset cur_time new_h flag s) = Ok np_inf
        /\ fst (register_event cur_time new_h flag s) = Ok np_inf)
  /\ (cls exp_decaying = ExpCDFSampler
      /\ w exp_decaying <> 0
      /\ 0 < u_unif exp_decaying < 1
      /\ Q exp_decaying = 1
      /\ decay exp_decaying <= 0
      /\ generate_sample exp_decaying = np_inf).
Proof.
  intros decay.
  assert (Inf : forall s', decay s' <= 0 -> generate_sample s' = np_inf).
  { intros s' H. subst decay. cbv beta in H.
    unfold generate_sample, Exp.generate_sample, Sigmoid.generate_sample.
    destruct (cls s').
    - change (Exp.D s' <= 0) in H.
      destruct (Rle_dec (Exp.D s') 0); [reflexivity | contradiction].
    - change (Sigmoid.D s' <= 0) in H.
      destruct (Rle_dec (Sigmoid.D s') 0); [reflexivity | contradiction]. }
  assert (Dd : decay exp_decaying <= 0).
  { subst decay. cbv beta. simpl.
    replace ((1 - (1 - exp (-30))) / 1) with (exp (-30)) by lra.
    rewrite ln_exp.
    pose proof (exp_pos (-20)) as P.
    pose proof (exp_increasing (-20) 0 ltac:(lra)) as H. rewrite exp_0 in H.
    assert (I : / 1 < / exp (-20)).
    { apply Rinv_lt_contravar; [rewrite Rmult_1_r; assumption | assumption]. }
    rewrite Rinv_1 in I. unfold Rdiv. lra. }
  split; [apply Inf |]. split; [| split].
  - intros H. subst decay. cbv beta in *.
    unfold generate_sample, Exp.generate_sample, Sigmoid.generate_sample.
    destruct (cls s).
    + change (0 < Exp.D s) in H.
      destruct (Rle_dec (Exp.D s) 0); [lra | reflexivity].
    + change (0 < Sigmoid.D s) in H.
      destruct (Rle_dec (Sigmoid.D s) 0); [lra | reflexivity].
  - intros cur_time new_h flag E. unfold register_event.
    rewrite reset_unfold, (dot_aligned _ _ E). cbn zeta. cbn [fst snd].
    intros H. apply Inf in H. rewrite H. split; reflexivity.
  - pose proof (exp_pos (-30)) as P.
    pose proof (exp_increasing (-30) 0 ltac:(lra)) as H. rewrite exp_0 in H.
    split; [reflexivity |]. split; [simpl; lra |].
    split; [simpl; lra |]. split; [reflexivity |].
    split; [assumption | apply Inf; assumption].
Qed.

(** *** Overflow of the decay variable *)

Lemma huge_ge_4 : 4 <= F64.huge.
Proof.
  unfold F64.huge. replace 4 with (2 ^ 2) by (simpl; lra).
  apply Rle_pow; [lra | lia].
Qed.

Lemma tiny_bounds : 0 < F64.tiny <= / 4.
Proof.
  unfold F64.tiny.
  assert (P : 0 < 2 ^ 1075) by (apply pow_lt; lra).
  assert (L : 2 ^ 2 <= 2 ^ 1075) by (apply Rle_pow; [lra | lia]).
  split; [apply Rinv_0_lt_compat; assumption |].
  replace 4 with (2 ^ 2) by (simpl; lra).
  apply Rinv_le_contravar; [simpl; lra | assumption].
Qed.

Lemma fit_num (x : R) :
  F64.tiny < Rabs x -> Rabs x < F64.huge -> F64.fit x = F64.num x.
Proof.
  intros Ht Hh. apply Rabs_def2 in Hh. unfold F64.fit.
  destruct (Rle_dec F64.huge x); [lra |].
  destruct (Rle_dec x (- F64.huge)); [lra |].
  destruct (Rle_dec (Rabs x) F64.tiny); [lra | reflexivity].
Qed.

Lemma fit_zero (x : R) : Rabs x <= F64.tiny -> F64.fit x = F64.num 0.
Proof.
  intros Ht. pose proof huge_ge_4. pose proof tiny_bounds as [_ T].
  assert (Hx : Rabs x < F64.huge) by lra. apply Rabs_def2 in Hx.
  unfold F64.fit.
  destruct (Rle_dec F64.huge x); [lra |].
  destruct (Rle_dec x (- F64.huge)); [lra |].
  destruct (Rle_dec (Rabs x) F64.tiny); [reflexivity | contradiction].
Qed.

Lemma fit_moderate (x : R) : / 4 < Rabs x -> Rabs x < 4 -> F64.fit x = F64.num x.
Proof.
  intros L U. pose proof huge_ge_4. pose proof tiny_bounds as [_ T].
  apply fit_num; lra.
Qed.

Lemma pow2_le_exp (n : nat) : 2 ^ n <= exp (INR n).
Proof.
  induction n as [| n IH].
  - simpl. rewrite exp_0. lra.
  - rewrite S_INR, exp_plus. cbn [pow].
    pose proof (exp_ineq1_le 1) as E1.
    assert (P : 0 <= 2 ^ n) by (apply pow_le; lra).
    rewrite Rmult_comm. apply Rmult_le_compat; lra.
Qed.

Lemma exp_minus_2000_underflows : Rabs (exp (-2000)) <= F64.tiny.
Proof.
  pose proof (exp_pos (-2000)) as P. rewrite Rabs_pos_eq by lra.
  replace (-2000) with (Ropp (INR 2000)) by (rewrite INR_IZR_INZ; reflexivity).
  rewrite exp_Ropp. unfold F64.tiny.
  pose proof (pow2_le_exp 2000) as E.
  assert (L : 2 ^ 1075 <= 2 ^ 2000) by (apply Rle_pow; [lra | lia]).
  apply Rinv_le_contravar; [apply pow_lt; lra | lra].
Qed.

(** C7, the claim refuted: on doubles, the exponential sampler with [w = 1],
    [c = -2000], [u_unif = 1/2] and [Q = 1] returns [np.inf] although its
    decay variable is not [<= 0].  [np.exp(c)] underflows to zero, the
    quotient [w / np.exp(c)] and with it [D] are [+inf], the test [D <= 0]
    fails, and the other branch returns [t0 + (1 / w) * np.log(D) = +inf].
    Over the reals [D] is positive as well. *)
Lemma exp_underflow_returns_inf :
  F64.D exp_underflow = F64.pinf
  /\ F64.le0 (F64.D exp_underflow) = false
  /\ F64.generate_sample exp_underflow = F64.pinf
  /\ 0 < 1 - (w exp_underflow / exp (c exp_underflow))
            * ln ((1 - u_unif exp_underflow) / Q exp_underflow).
Proof.
  pose proof ln_2_bounds as [L2 U2].
  assert (E1 : F64.fexp (F64.num (-2000)) = F64.num 0).
  { unfold F64.fexp. apply fit_zero. apply exp_minus_2000_underflows. }
  assert (E2 : F64.div (F64.num 1) (F64.num 0) = F64.pinf).
  { unfold F64.div, F64.signed.
    destruct (Req_dec_T 0 0); [| contradiction].
    destruct (Rlt_dec 0 1); [reflexivity | lra]. }
  assert (E3 : F64.sub (F64.num 1) (F64.num (1 / 2)) = F64.num (1 + - (1 / 2))).
  { unfold F64.sub, F64.neg, F64.add. apply fit_moderate.
    - rewrite Rabs_pos_eq; lra.
    - rewrite Rabs_pos_eq; lra. }
  assert (E4 : F64.div (F64.num (1 + - (1 / 2))) (F64.num 1)
               = F64.num ((1 + - (1 / 2)) / 1)).
  { unfold F64.div. destruct (Req_dec_T 1 0); [lra |]. apply fit_moderate.
    - rewrite Rabs_pos_eq; lra.
    - rewrite Rabs_pos_eq; lra. }
  assert (Lv : ln ((1 + - (1 / 2)) / 1) = - ln 2).
  { replace ((1 + - (1 / 2)) / 1) with (1 / 2) by lra. apply ln_half. }
  assert (E5 : F64.flog (F64.num ((1 + - (1 / 2)) / 1))
               = F64.num (ln ((1 + - (1 / 2)) / 1))).
  { unfold F64.flog. destruct (Rlt_dec 0 ((1 + - (1 / 2)) / 1)); [| lra].
    apply fit_moderate; rewrite Lv, Rabs_Ropp, Rabs_pos_eq; lra. }
  assert (E6 : F64.mul F64.pinf (F64.num (ln ((1 + - (1 / 2)) / 1)))
               = F64.ninf).
  { unfold F64.mul, F64.signed. rewrite Lv.
    destruct (Rlt_dec 0 (- ln 2)); [lra |].
    destruct (Rlt_dec (- ln 2) 0); [reflexivity | lra]. }
  assert (ED : F64.D exp_underflow = F64.pinf).
  { unfold F64.D. cbn [w c u_unif Q exp_underflow].
    rewrite E1, E2, E3, E4, E5, E6. reflexivity. }
  assert (E7 : F64.div (F64.num 1) (F64.num 1) = F64.num (1 / 1)).
  { unfold F64.div. destruct (Req_dec_T 1 0); [lra |]. apply fit_moderate.
    - rewrite Rabs_pos_eq; lra.
    - rewrite Rabs_pos_eq; lra. }
  split; [exact ED |]. split; [rewrite ED; reflexivity |]. split.
  - unfold F64.generate_sample. rewrite ED. cbn [F64.le0 F64.flog].
    cbn [w t0 exp_underflow]. rewrite E7.
    unfold F64.mul, F64.signed.
    destruct (Rlt_dec 0 (1 / 1)); [reflexivity | lra].
  - cbn [w c u_unif Q exp_underflow].
    replace ((1 - 1 / 2) / 1) with (1 / 2) by lra. rewrite ln_half.
    pose proof (exp_pos (-2000)) as P.
    assert (0 < 1 / exp (-2000)) by (apply Rdiv_lt_0_compat; lra).
    nra.
Qed.

(** ** The CDF at the sampled time *)

Lemma ln_quotient (x y : R) : 0 < x -> 0 < y -> ln (x / y) = ln x - ln y.
Proof.
  intros Hx Hy. unfold Rdiv.
  rewrite ln_mult by (try apply Rinv_0_lt_compat; assumption).
  rewrite ln_Rinv by assumption. ring.
Qed.

Lemma one_plus_exp_pos (x : R) : 0 < 1 + exp x.
Proof. pose proof (exp_pos x). lra. Qed.

(** In both families [cdf] is the CDF of the intensity whose integral is
    [int_u]: the survival probability is [exp (- (U(t - t0) - U(0)))]. *)
Lemma cdf_is_survival_of_int_u (s : sampler) (t : R) :
  w s = wt s -> wt s <> 0 ->
  1 - cdf s t = exp (- int_u s (t - t0 s) (c s)).
Proof.
  intros Ew Hw. unfold cdf, int_u. destruct (cls s).
  - unfold Exp.cdf, Exp.int_u. rewrite Ew.
    replace (1 - (1 - exp (exp (c s) / wt s * (1 - exp (wt s * (t - t0 s))))))
      with (exp (exp (c s) / wt s * (1 - exp (wt s * (t - t0 s))))) by ring.
    f_equal. rewrite exp_plus. field. assumption.
  - unfold Sigmoid.cdf, Sigmoid.int_u, Rpower. cbn zeta.
    pose proof (one_plus_exp_pos (c s)) as P1.
    pose proof (one_plus_exp_pos (c s + wt s * (t - t0 s))) as P2.
    rewrite ln_quotient by assumption.
    match goal with |- 1 - (1 - ?a) = _ => replace (1 - (1 - a)) with a by ring end.
    f_equal. ring.
Qed.

(** The exponential sampler inverts its CDF: at the sampled time the
    survival probability, conditioned by [Q], is [1 - u]. *)
Lemma exp_cdf_at_sample (s : sampler) (t : R) :
  cls s = ExpCDFSampler -> w s <> 0 -> u_unif s < 1 -> 0 < Q s ->
  generate_sample s = Finite t ->
  (1 - cdf s t) * Q s = 1 - u_unif s.
Proof.
  intros E Hw Hu HQ Hg.
  destruct (generate_sample_cases s) as [[_ Hinf] | [Hd _]];
    [rewrite Hinf in Hg; discriminate |].
  unfold D in Hd. rewrite E in Hd.
  rewrite (exp_generate_sample_finite s E Hd) in Hg.
  injection Hg as <-.
  unfold cdf, Exp.cdf. rewrite E.
  replace (w s * (t0 s + 1 / w s * ln (Exp.D s) - t0 s)) with (ln (Exp.D s))
    by (field; assumption).
  rewrite exp_ln by assumption.
  pose proof (exp_pos (c s)) as Pc.
  assert (Px : 0 < (1 - u_unif s) / Q s).
  { apply Rdiv_lt_0_compat; lra. }
  replace (exp (c s) / w s * (1 - Exp.D s)) with (ln ((1 - u_unif s) / Q s)).
  2:{ unfold Exp.D. field. split; lra. }
  rewrite exp_ln by assumption. field. lra.
Qed.

(** The sigmoid sampler does not: at the sampled time the survival
    probability is [(1 - u) / Q] raised to the power [(k / wt)^2]. *)
Lemma sigmoid_cdf_at_sample (s : sampler) (t : R) :
  cls s = SigmoidCDFSampler -> wt s <> 0 -> u_unif s < 1 -> 0 < Q s ->
  generate_sample s = Finite t ->
  1 - cdf s t = Rpower ((1 - u_unif s) / Q s) ((k s / wt s) * (k s / wt s)).
Proof.
  intros E Hw Hu HQ Hg.
  destruct (generate_sample_cases s) as [[_ Hinf] | [Hd _]];
    [rewrite Hinf in Hg; discriminate |].
  unfold D in Hd. rewrite E in Hd.
  unfold generate_sample, Sigmoid.generate_sample in Hg. rewrite E in Hg.
  destruct (Rle_dec (Sigmoid.D s) 0); [lra |].
  injection Hg as <-.
  unfold cdf, Sigmoid.cdf. rewrite E. cbn zeta.
  replace (c s + wt s * (t0 s + (ln (Sigmoid.D s) - c s) / wt s - t0 s))
    with (ln (Sigmoid.D s)) by (field; assumption).
  rewrite exp_ln by assumption.
  pose proof (one_plus_exp_pos (c s)) as P1.
  set (x := (1 - u_unif s) / Q s).
  set (a := k s / wt s).
  assert (Hp : 0 < Rpower x a) by (unfold Rpower; apply exp_pos).
  assert (HC : (1 + exp (c s)) / (1 + Sigmoid.D s) = Rpower x a).
  { unfold Sigmoid.D. fold x.
    replace (- k s / wt s) with (- a) by (subst a; field; assumption).
    rewrite Rpower_Ropp. field. lra. }
  rewrite HC, Rpower_mult. ring.
Qed.

Lemma Rpower_half_2 : Rpower (1 / 2) 2 = 1 / 4.
Proof.
  replace (Rpower (1 / 2) 2) with (Rpower (1 / 2) (INR 2))
    by (f_equal; simpl; lra).
  rewrite Rpower_pow by lra. simpl. lra.
Qed.

Lemma Rpower_half_4 : Rpower (1 / 2) 4 = 1 / 16.
Proof.
  replace (Rpower (1 / 2) 4) with (Rpower (1 / 2) (INR 4))
    by (f_equal; simpl; lra).
  rewrite Rpower_pow by lra. simpl. lra.
Qed.

(** C1, where the code departs from it.  The sigmoid sampler with [k = 2],
    [wt = 1], [c = 0], [u_unif = 1/2], [Q = 1], [t0 = 0] returns the finite
    time [ln 7], at which its own CDF is [15/16], not [u = 1/2]; the time at
    which that CDF is [1/2] is [ln (2 * sqrt 2 - 1)]. *)
Theorem sigmoid_roundtrip_fails :
  generate_sample sigmoid_k2 = Finite (ln 7)
  /\ cdf sigmoid_k2 (ln 7) = 15 / 16
  /\ u_unif sigmoid_k2 = 1 / 2
  /\ cdf sigmoid_k2 (ln (2 * sqrt 2 - 1)) = 1 / 2.
Proof.
  assert (HD : Sigmoid.D sigmoid_k2 = 7).
  { unfold Sigmoid.D. simpl.
    replace ((1 - 1 / 2) / 1) with (1 / 2) by lra.
    replace (- (2) / 1) with (Ropp 2) by lra.
    rewrite Rpower_Ropp, Rpower_half_2, exp_0. lra. }
  assert (Hg : generate_sample sigmoid_k2 = Finite (ln 7)).
  { unfold generate_sample, Sigmoid.generate_sample.
    change (cls sigmoid_k2) with SigmoidCDFSampler. cbv iota. rewrite HD.
    destruct (Rle_dec 7 0); [lra |]. simpl. f_equal. lra. }
  split; [exact Hg | split; [| split; [reflexivity |]]].
  - pose proof (sigmoid_cdf_at_sample sigmoid_k2 (ln 7) eq_refl) as H.
    simpl in H.
    assert (H' : 1 - cdf sigmoid_k2 (ln 7)
                 = Rpower ((1 - 1 / 2) / 1) (2 / 1 * (2 / 1))).
    { apply H; try lra. exact Hg. }
    replace ((1 - 1 / 2) / 1) with (1 / 2) in H' by lra.
    replace (2 / 1 * (2 / 1)) with 4 in H' by lra.
    rewrite Rpower_half_4 in H'. lra.
  - unfold cdf, Sigmoid.cdf. simpl.
    assert (S2 : 1 < sqrt 2).
    { rewrite <- sqrt_1. apply sqrt_lt_1; lra. }
    assert (Sq : sqrt 2 * sqrt 2 = 2) by (apply sqrt_sqrt; lra).
    replace (0 + 1 * (ln (2 * sqrt 2 - 1) - 0)) with (ln (2 * sqrt 2 - 1)) by ring.
    rewrite exp_ln by lra. rewrite exp_0.
    replace ((1 + 1) / (1 + (2 * sqrt 2 - 1))) with (/ sqrt 2) by (field; lra).
    replace (2 / 1) with (INR 2) by (simpl; lra).
    rewrite Rpower_pow by (apply Rinv_0_lt_compat; lra).
    simpl. rewrite Rmult_1_r, <- Rinv_mult, Sq. lra.
Qed.

(** ** The aggregates [calc_LL] and [calc_quad_loss] *)

Lemma py_sum_snoc (xs : list R) (x : R) : py_sum (xs ++ [x]) = py_sum xs + x.
Proof. unfold py_sum. rewrite fold_left_app. reflexivity. Qed.

Lemma sum_below_ext (n : nat) (f g : nat -> R) :
  (forall i, (i < n)%nat -> f i = g i) -> sum_below n f = sum_below n g.
Proof.
  induction n as [| n IH]; intros H; simpl; [reflexivity |].
  rewrite IH, H by (intros; try apply H; lia). reflexivity.
Qed.

(** A left fold over a list is the sum of its items by index. *)
Lemma py_sum_map_index {A : Type} (g : A -> R) (d : A) (l : list A) :
  py_sum (map g l) = sum_below (length l) (fun i => g (nth i l d)).
Proof.
  induction l as [| x l IH] using rev_ind; [reflexivity |].
  rewrite map_app, length_app, Nat.add_1_r. cbn [map sum_below].
  rewrite py_sum_snoc, IH, nth_middle. f_equal.
  apply sum_below_ext. intros i Hi. rewrite app_nth1 by assumption. reflexivity.
Qed.

(** Items rejected by the generator's [if] contribute nothing. *)
Lemma py_sum_map_filter {A : Type} (g : A -> R) (p : A -> bool) (l : list A) :
  py_sum (map g (filter p l)) = py_sum (map (fun x => if p x then g x else 0) l).
Proof.
  induction l as [| x l IH] using rev_ind; [reflexivity |].
  rewrite filter_app, !map_app. cbn [filter map].
  destruct (p x); cbn [map].
  - rewrite !py_sum_snoc, IH. reflexivity.
  - rewrite py_sum_snoc, app_nil_r, IH. ring.
Qed.

Lemma nth_combine {A B : Type} (l : list A) (l' : list B) (da : A) (db : B) (i : nat) :
  (i < Nat.min (length l) (length l'))%nat ->
  nth i (combine l l') (da, db) = (nth i l da, nth i l' db).
Proof.
  revert l' i. induction l as [| x l IH]; intros [| y l'] i Hi; simpl in Hi;
    try lia.
  destruct i as [| i]; [reflexivity |]. simpl. apply IH. lia.
Qed.

Lemma item_m1_snoc {A : Type} (l : list A) (x : A) : item_m1 (l ++ [x]) = Ok x.
Proof.
  induction l as [| y l IH]; [reflexivity |].
  simpl. rewrite IH. destruct (l ++ [x]) eqn:E; [| reflexivity].
  destruct l; discriminate.
Qed.

Lemma sum_over_pairs (g : R -> R -> R) (dts cs : list R) :
  py_sum (map (fun p => g (fst p) (snd p)) (combine dts cs))
  = sum_below (Nat.min (length dts) (length cs))
              (fun i => g (nth i dts 0) (nth i cs 0)).
Proof.
  rewrite (py_sum_map_index _ (0, 0)), length_combine.
  apply sum_below_ext. intros i Hi. rewrite nth_combine by assumption.
  reflexivity.
Qed.

Lemma calc_quad_loss_index (self : sampler) (dts cs : list R) :
  calc_quad_loss self dts cs
  = int2_sum_over self dts cs (Nat.min (length dts) (length cs)).
Proof. unfold calc_quad_loss, int2_sum_over. apply sum_over_pairs. Qed.

Lemma LL_log_index (self : sampler) (dts cs : list R) (flags : list bool) :
  py_sum (map (fun p => log_u self (fst (fst p)) (snd (fst p)))
              (filter (fun p => snd p) (zip3 dts cs flags)))
  = log_sum_over self dts cs flags
      (Nat.min (Nat.min (length dts) (length cs)) (length flags)).
Proof.
  rewrite py_sum_map_filter, (py_sum_map_index _ (0, 0, false)).
  unfold zip3, log_sum_over. rewrite !length_combine.
  apply sum_below_ext. intros i Hi.
  rewrite nth_combine by (rewrite length_combine; assumption).
  rewrite nth_combine by lia. reflexivity.
Qed.

(** The value of [calc_LL] on any three lists. *)
Lemma calc_LL_index (self : sampler) (dts cs : list R) (init : list bool) (b : bool) :
  calc_LL self dts cs (init ++ [b])
  = if b then Raise AssertionError
    else Ok (log_sum_over self dts cs (init ++ [b])
               (Nat.min (Nat.min (length dts) (length cs)) (length (init ++ [b])))
             - int_sum_over self dts cs (Nat.min (length dts) (length cs))).
Proof.
  unfold calc_LL. rewrite item_m1_snoc. destruct b; [reflexivity |].
  cbn zeta. rewrite LL_log_index. unfold int_sum_over.
  rewrite sum_over_pairs. reflexivity.
Qed.

(** C5.  On lists of one length whose last flag is false, [calc_LL] returns
    the sum of [log_u(dt_i, c_i)] over the indices whose flag is true, minus
    the sum of [int_u(dt_i, c_i)] over every index, the last interval
    included. *)
Theorem calc_LL_spec (self : sampler) (dts cs : list R) (init : list bool) :
  length dts = length cs ->
  length cs = length (init ++ [false]) ->
  calc_LL self dts cs (init ++ [false])
  = Ok (log_sum_over self dts cs (init ++ [false]) (length dts)
        - int_sum_over self dts cs (length dts)).
Proof.
  intros E1 E2. rewrite calc_LL_index.
  rewrite <- E2, <- E1, !Nat.min_id. reflexivity.
Qed.

Lemma calc_LL_spec_witness :
  calc_LL (exp_unit 0) [1; 2] [0; 3] [true; false]
  = Ok (log_sum_over (exp_unit 0) [1; 2] [0; 3] [true; false] 2
        - int_sum_over (exp_unit 0) [1; 2] [0; 3] 2).
Proof.
  exact (calc_LL_spec (exp_unit 0) [1; 2] [0; 3] [true] eq_refl eq_refl).
Defined.

(** C6.  On a non-empty list of flags, [calc_LL] raises [AssertionError]
    exactly when the last flag is true; when it is false the call returns a
    value. *)
Theorem calc_LL_last_flag (self : sampler) (dts cs : list R) (init : list bool)
        (b : bool) :
  (calc_LL self dts cs (init ++ [b]) = Raise AssertionError <-> b = true)
  /\ (b = false -> exists v, calc_LL self dts cs (init ++ [b]) = Ok v).
Proof.
  rewrite calc_LL_index. destruct b; split; try split; intros;
    try reflexivity; try discriminate; eauto.
Qed.

(** C10, as the code has it.  Lists of unequal lengths raise no error of
    their own: [calc_quad_loss] sums [int_u_2] over the common prefix of
    [event_time_deltas] and [c_is]; [calc_LL] reads the last item of the whole
    list [is_own_event] for its assertion, sums [log_u] over the flagged
    indices of the common prefix of the three lists, and sums [int_u] over
    the common prefix of [event_time_deltas] and [c_is] alone, whatever the
    length of [is_own_event]; an empty [is_own_event] raises [IndexError]. *)
Theorem aggregates_on_unequal_lengths (self : sampler) (dts cs : list R) :
  calc_quad_loss self dts cs
  = int2_sum_over self dts cs (Nat.min (length dts) (length cs))
  /\ (forall init,
        calc_LL self dts cs (init ++ [false])
        = Ok (log_sum_over self dts cs (init ++ [false])
                (Nat.min (Nat.min (length dts) (length cs))
                         (length (init ++ [false])))
              - int_sum_over self dts cs (Nat.min (length dts) (length cs))))
  /\ (forall init, calc_LL self dts cs (init ++ [true]) = Raise AssertionError)
  /\ calc_LL self dts cs [] = Raise IndexError.
Proof.
  split; [apply calc_quad_loss_index |].
  split; [intros init; apply (calc_LL_index self dts cs init false) |].
  split; [intros init; apply (calc_LL_index self dts cs init true) | reflexivity].
Qed.

(** C10, the claim refuted: with two intervals and a single flag, the
    integral term of [calc_LL] still covers both intervals, so the result is
    not the difference of the sums over the common prefix of length 1. *)
Lemma calc_LL_integral_past_flags :
  calc_LL (exp_unit 0) [1; 1] [0; 0] [false] = Ok (- (2 * (exp 1 - 1)))
  /\ log_sum_over (exp_unit 0) [1; 1] [0; 0] [false] 1
     - int_sum_over (exp_unit 0) [1; 1] [0; 0] 1 = - (exp 1 - 1)
  /\ calc_LL (exp_unit 0) [1; 1] [0; 0] [false]
     <> Ok (log_sum_over (exp_unit 0) [1; 1] [0; 0] [false] 1
            - int_sum_over (exp_unit 0) [1; 1] [0; 0] 1).
Proof.
  assert (A : calc_LL (exp_unit 0) [1; 1] [0; 0] [false]
              = Ok (- (2 * (exp 1 - 1)))).
  { unfold calc_LL, py_sum, int_u, Exp.int_u. simpl.
    replace (0 + 1 * 1) with 1 by ring. rewrite exp_0. f_equal. field. }
  assert (B : log_sum_over (exp_unit 0) [1; 1] [0; 0] [false] 1
              - int_sum_over (exp_unit 0) [1; 1] [0; 0] 1 = - (exp 1 - 1)).
  { unfold log_sum_over, int_sum_over, int_u, Exp.int_u. simpl.
    replace (0 + 1 * 1) with 1 by ring. rewrite exp_0. field. }
  split; [exact A | split; [exact B |]].
  rewrite A, B. intros H. injection H as H.
  pose proof (exp_increasing 0 1 ltac:(lra)) as I. rewrite exp_0 in I. lra.
Qed.

(** ** The survival factor [Q] *)

Lemma scaled_increase_pos (f : R -> R) (q r x dt : R) :
  (forall a b, a < b -> f a < f b) ->
  0 < q * r -> 0 < dt -> 0 < q * (f (x + r * dt) - f x).
Proof.
  intros Hf Hq Hdt.
  destruct (Rtotal_order 0 r) as [Hr | [Hr | Hr]].
  - assert (0 < q) by nra.
    assert (f x < f (x + r * dt)) by (apply Hf; nra).
    apply Rmult_lt_0_compat; lra.
  - subst r. lra.
  - assert (q < 0) by nra.
    assert (f (x + r * dt) < f x) by (apply Hf; nra).
    replace (q * (f (x + r * dt) - f x)) with ((- q) * (f x - f (x + r * dt))) by ring.
    apply Rmult_lt_0_compat; lra.
Qed.

Lemma softplus_increasing (a b : R) : a < b -> ln (1 + exp a) < ln (1 + exp b).
Proof.
  intros H. apply ln_increasing; [apply one_plus_exp_pos |].
  pose proof (exp_increasing a b H). lra.
Qed.

(** The integral of the intensity over an interval of length [dt >= 0] is
    non-negative, and zero only for the empty interval. *)
Lemma int_u_sign (s : sampler) (dt ci : R) :
  valid_rates s -> 0 <= dt ->
  0 <= int_u s dt ci /\ (int_u s dt ci = 0 <-> dt = 0).
Proof.
  intros [_ [Hw Hk]] Hdt.
  assert (Z0 : dt = 0 -> int_u s dt ci = 0).
  { intros ->. unfold int_u, Exp.int_u, Sigmoid.int_u.
    destruct (cls s); rewrite Rmult_0_r, Rplus_0_r; ring. }
  assert (P : 0 < dt -> 0 < int_u s dt ci).
  { intros Hpos. unfold int_u, Exp.int_u, Sigmoid.int_u.
    destruct (cls s) eqn:E.
    - apply (scaled_increase_pos exp); [apply exp_increasing | | assumption].
      replace (1 / wt s * wt s) with 1 by (field; assumption). lra.
    - apply (scaled_increase_pos (fun x => ln (1 + exp x)));
        [apply softplus_increasing | | assumption].
      replace (k s / wt s * wt s) with (k s) by (field; assumption).
      apply Hk. reflexivity. }
  destruct Hdt as [Hpos | <-].
  - specialize (P Hpos). split; [lra |]. split; intros; lra.
  - rewrite Z0 by reflexivity. split; [lra |]. split; reflexivity.
Qed.

(** The factor [1 - cdf(t)] that [reset] multiplies into [Q] is a
    probability in (0, 1], and 1 only when [t] is the anchor. *)
Lemma survival_range (s : sampler) (t : R) :
  valid_rates s -> t0 s <= t ->
  0 < 1 - cdf s t <= 1 /\ (1 - cdf s t = 1 <-> t = t0 s).
Proof.
  intros V Ht. pose proof V as [Ew [Hw _]].
  rewrite (cdf_is_survival_of_int_u s t Ew Hw).
  destruct (int_u_sign s (t - t0 s) (c s) V ltac:(lra)) as [I0 Iz].
  set (i := int_u s (t - t0 s) (c s)) in *.
  pose proof (exp_pos (- i)) as P.
  assert (U : exp (- i) <= 1).
  { destruct I0 as [I0 | <-]; [| rewrite Ropp_0, exp_0; lra].
    left. rewrite <- exp_0. apply exp_increasing. lra. }
  split; [lra |]. split.
  - intros E. rewrite <- exp_0 in E. apply exp_inv in E.
    assert (i = 0) by lra. apply Iz in H. lra.
  - intros ->. assert (i = 0) by (apply Iz; lra).
    rewrite H, Ropp_0. apply exp_0.
Qed.

(** What a call does to the rates, the anchor, the generator and [Q],
    whether it returns or raises. *)
Lemma exec_effect (op : call) (s : sampler) :
  let s' := snd (exec op s) in
  (cls s', wt s', w s', k s') = (cls s, wt s, w s, k s)
  /\ (t0 s' = call_time op \/ t0 s' = t0 s)
  /\ ((drew_fresh s s' /\ Q s' = 1)
      \/ (random_state s' = random_state s
          /\ Q s' = Q s * (1 - cdf s (call_time op)))).
Proof.
  unfold drew_fresh.
  destruct op as [t hs b | t hs b | t]; cbn [exec call_time];
    unfold register_event;
    try (rewrite reset_unfold; unfold after_branch;
         destruct b; destruct (dot (vt s) hs); simpl; auto 6).
  rewrite reset_only_sample_unfold. simpl. auto 6.
Qed.






Lemma CDFSampler_init_aligned (mt19937 : Z -> nat -> R) (kl : klass) (k_ : R)
      (vt_ : list R) (wt_ bt_ : R) (init_h : list R) (t_min : R) (seed_ : Z) :
  seed_ok seed_ = true ->
  length init_h = length vt_ ->
  CDFSampler_init mt19937 kl k_ vt_ wt_ bt_ init_h t_min seed_
  = Ok (mkSampler kl seed_ vt_ wt_ bt_ wt_ 1
                  (mkRandomState (mt19937 seed_) 1) (mt19937 seed_ 0%nat)
                  init_h (inner vt_ init_h + bt_) t_min k_).
Proof.
  intros Hseed E. unfold CDFSampler_init. rewrite Hseed, reset_unfold. cbn [vt].
  rewrite (dot_aligned _ _ E). reflexivity.
Qed.




(** ** The round trip where it holds *)

Lemma exp_unit_sample (t : R) :
  generate_sample (exp_unit t) = Finite (t + ln (1 - ln (1 / 2))).
Proof.
  assert (HD : Exp.D (exp_unit t) = 1 - ln (1 / 2)).
  { unfold Exp.D. simpl. rewrite exp_0.
    replace ((1 - 1 / 2) / 1) with (1 / 2) by lra. lra. }
  assert (Hpos : 0 < Exp.D (exp_unit t)).
  { rewrite HD, ln_half. pose proof ln_2_pos. lra. }
  rewrite (exp_generate_sample_finite (exp_unit t) eq_refl Hpos), HD. simpl.
  f_equal. lra.
Qed.

Lemma sigmoid_unit_sample : generate_sample sigmoid_unit = Finite (ln 3).
Proof.
  assert (HD : Sigmoid.D sigmoid_unit = 3).
  { unfold Sigmoid.D. simpl.
    replace ((1 - 1 / 2) / 1) with (1 / 2) by lra.
    replace (- (1) / 1) with (Ropp 1) by lra.
    rewrite Rpower_Ropp, Rpower_1, exp_0 by lra. lra. }
  unfold generate_sample, Sigmoid.generate_sample.
  change (cls sigmoid_unit) with SigmoidCDFSampler. cbv iota. rewrite HD.
  destruct (Rle_dec 3 0); [lra |]. simpl. f_equal. lra.
Qed.

(** The exponential family inverts its CDF: for a nonzero rate, a variate
    [u] in (0, 1) and [Q = 1], the CDF at a finite sampled time is [u]. *)
Theorem exp_roundtrip (s : sampler) (t : R) :
  cls s = ExpCDFSampler -> w s <> 0 -> 0 < u_unif s < 1 -> Q s = 1 ->
  generate_sample s = Finite t ->
  cdf s t = u_unif s.
Proof.
  intros E Hw Hu HQ Hg.
  pose proof (exp_cdf_at_sample s t E Hw ltac:(lra) ltac:(lra) Hg) as H.
  rewrite HQ in H. lra.
Qed.

Lemma exp_roundtrip_witness :
  cdf (exp_unit 3) (3 + ln (1 - ln (1 / 2))) = 1 / 2.
Proof.
  assert (Hw : w (exp_unit 3) <> 0) by (simpl; lra).
  assert (Hu : 0 < u_unif (exp_unit 3) < 1) by (simpl; lra).
  exact (exp_roundtrip (exp_unit 3) _ eq_refl Hw Hu eq_refl (exp_unit_sample 3)).
Defined.

(** The sigmoid family inverts its CDF when the scale equals the rate up to
    sign, [k^2 = wt^2], as with the default [k = 1] and [wt = 1]. *)
Theorem sigmoid_roundtrip_unit_ratio (s : sampler) (t : R) :
  cls s = SigmoidCDFSampler -> wt s <> 0 -> k s * k s = wt s * wt s ->
  0 < u_unif s < 1 -> Q s = 1 ->
  generate_sample s = Finite t ->
  cdf s t = u_unif s.
Proof.
  intros E Hw Hk Hu HQ Hg.
  pose proof (sigmoid_cdf_at_sample s t E Hw ltac:(lra) ltac:(lra) Hg) as H.
  replace (k s / wt s * (k s / wt s)) with 1 in H.
  2:{ replace (k s / wt s * (k s / wt s)) with (k s * k s / (wt s * wt s))
        by (field; assumption).
      rewrite Hk. field. assumption. }
  rewrite HQ, Rpower_1 in H by lra. lra.
Qed.

Lemma sigmoid_roundtrip_unit_ratio_witness :
  cdf sigmoid_unit (ln 3) = 1 / 2.
Proof.
  assert (Hw : wt sigmoid_unit <> 0) by (simpl; lra).
  assert (Hk : k sigmoid_unit * k sigmoid_unit = wt sigmoid_unit * wt sigmoid_unit)
    by reflexivity.
  assert (Hu : 0 < u_unif sigmoid_unit < 1) by (simpl; lra).
  exact (sigmoid_roundtrip_unit_ratio sigmoid_unit _ eq_refl Hw Hk Hu eq_refl
                                      sigmoid_unit_sample).
Defined.

(** * Further properties of the closed forms *)

(** ** Splitting an interval *)

(** The three closed forms over an interval of length [d1 + d2] split at
    [d1], the bias of the second part being the bias advanced by
    [wt * d1]: the integrals add up and the log-intensity carries over. *)
Theorem closed_forms_split (s : sampler) (d1 d2 ci : R) :
  int_u s (d1 + d2) ci = int_u s d1 ci + int_u s d2 (ci + wt s * d1)
  /\ int_u_2 s (d1 + d2) ci = int_u_2 s d1 ci + int_u_2 s d2 (ci + wt s * d1)
  /\ log_u s (d1 + d2) ci = log_u s d2 (ci + wt s * d1).
Proof.
  unfold int_u, int_u_2, log_u.
  destruct (cls s);
    unfold Exp.int_u, Exp.int_u_2, Exp.log_u,
           Sigmoid.int_u, Sigmoid.int_u_2, Sigmoid.log_u;
    replace (ci + wt s * (d1 + d2)) with (ci + wt s * d1 + wt s * d2) by ring;
    replace (2 * ci + 2 * wt s * (d1 + d2))
      with (2 * (ci + wt s * d1) + 2 * wt s * d2) by ring;
    replace (2 * ci + 2 * wt s * d1) with (2 * (ci + wt s * d1)) by ring;
    repeat split; ring.
Qed.

Lemma int_u_split (s : sampler) (d1 d2 ci : R) :
  int_u s (d1 + d2) ci = int_u s d1 ci + int_u s d2 (ci + wt s * d1).
Proof.
  unfold int_u.
  destruct (cls s); unfold Exp.int_u, Sigmoid.int_u;
    replace (ci + wt s * (d1 + d2)) with (ci + wt s * d1 + wt s * d2) by ring;
    ring.
Qed.

(** ** The CDF as a function of time *)

Lemma int_u_increasing (s : sampler) (d1 d2 ci : R) :
  valid_rates s -> d1 < d2 -> int_u s d1 ci < int_u s d2 ci.
Proof.
  intros V H.
  replace d2 with (d1 + (d2 - d1)) by ring. rewrite int_u_split.
  destruct (int_u_sign s (d2 - d1) (ci + wt s * d1) V ltac:(lra)) as [P Z].
  destruct P as [P | P]; [lra |].
  symmetry in P. apply Z in P. lra.
Qed.

(** Over the real numbers, [cdf] is a distribution function on the times
    after the anchor: it is [0] at [t0], stays in [0, 1) afterwards, and is
    strictly increasing.  (In doubles it reaches 1 and becomes flat.) *)
Theorem cdf_distribution (s : sampler) :
  valid_rates s ->
  cdf s (t0 s) = 0
  /\ (forall t, t0 s <= t -> 0 <= cdf s t < 1)
  /\ (forall t1 t2, t1 < t2 -> cdf s t1 < cdf s t2).
Proof.
  intros V. pose proof V as [Ew [Hw _]].
  split; [| split].
  - destruct (survival_range s (t0 s) V ltac:(lra)) as [_ H].
    assert (1 - cdf s (t0 s) = 1) by (apply H; reflexivity). lra.
  - intros t Ht. destruct (survival_range s t V Ht) as [H _]. lra.
  - intros t1 t2 H.
    pose proof (cdf_is_survival_of_int_u s t1 Ew Hw) as E1.
    pose proof (cdf_is_survival_of_int_u s t2 Ew Hw) as E2.
    pose proof (int_u_increasing s (t1 - t0 s) (t2 - t0 s) (c s) V ltac:(lra)) as I.
    assert (exp (- int_u s (t2 - t0 s) (c s)) < exp (- int_u s (t1 - t0 s) (c s)))
      by (apply exp_increasing; lra).
    lra.
Qed.

Lemma cdf_distribution_witness :
  cdf (exp_unit 0) 0 = 0.
Proof.
  assert (V : valid_rates (exp_unit 0)).
  { unfold valid_rates. simpl. repeat split; try lra. discriminate. }
  exact (proj1 (cdf_distribution (exp_unit 0) V)).
Defined.

(** The survival probability [1 - cdf(t)] is the exponential of minus the
    integrated intensity [int_u(t - t0, c)], in both families. *)
Theorem survival_is_exp_of_integral (s : sampler) (t : R) :
  w s = wt s -> wt s <> 0 ->
  1 - cdf s t = exp (- int_u s (t - t0 s) (c s)).
Proof. apply cdf_is_survival_of_int_u. Qed.

Lemma survival_is_exp_of_integral_witness :
  1 - cdf sigmoid_k2 5 = exp (- int_u sigmoid_k2 (5 - 0) 0).
Proof.
  assert (Hw : wt sigmoid_k2 <> 0) by (simpl; lra).
  exact (survival_is_exp_of_integral sigmoid_k2 5 eq_refl Hw).
Defined.

(** ** The integrals as antiderivatives of the intensity *)

Lemma dlim_eq (f : R -> R) (x l l' : R) :
  derivable_pt_lim f x l -> l = l' -> derivable_pt_lim f x l'.
Proof. intros H <-. exact H. Qed.

Lemma deriv_affine (a b x : R) : derivable_pt_lim (fun d => a + b * d) x b.
Proof.
  intros eps Heps. exists (mkposreal 1 Rlt_0_1). intros h Hh _.
  replace ((a + b * (x + h) - (a + b * x)) / h - b) with 0 by (field; assumption).
  rewrite Rabs_R0. assumption.
Qed.

Lemma deriv_exp_affine (a b x : R) :
  derivable_pt_lim (fun d => exp (a + b * d)) x (b * exp (a + b * x)).
Proof.
  apply dlim_eq with (exp (a + b * x) * b); [| ring].
  apply (derivable_pt_lim_comp (fun d => a + b * d) exp).
  - apply deriv_affine.
  - apply derivable_pt_lim_exp.
Qed.

Lemma deriv_one_plus_exp (a b x : R) :
  derivable_pt_lim (fun d => 1 + exp (a + b * d)) x (0 + b * exp (a + b * x)).
Proof.
  apply (derivable_pt_lim_plus (fct_cte 1) (fun d => exp (a + b * d))).
  - apply derivable_pt_lim_const.
  - apply deriv_exp_affine.
Qed.

Lemma deriv_softplus_affine (a b x : R) :
  derivable_pt_lim (fun d => ln (1 + exp (a + b * d))) x
                   (b * exp (a + b * x) / (1 + exp (a + b * x))).
Proof.
  pose proof (exp_pos (a + b * x)) as P.
  apply dlim_eq with (/ (1 + exp (a + b * x)) * (0 + b * exp (a + b * x)));
    [| field; lra].
  apply (derivable_pt_lim_comp (fun d => 1 + exp (a + b * d)) ln).
  - apply deriv_one_plus_exp.
  - apply derivable_pt_lim_ln. lra.
Qed.

Lemma deriv_inv_affine (a b x : R) :
  derivable_pt_lim (fun d => 1 / (1 + exp (a + b * d))) x
                   (- (b * exp (a + b * x)) / (1 + exp (a + b * x)) ^ 2).
Proof.
  pose proof (exp_pos (a + b * x)) as P.
  apply dlim_eq with ((0 * (1 + exp (a + b * x)) - (0 + b * exp (a + b * x)) * 1)
                      / Rsqr (1 + exp (a + b * x)));
    [| unfold Rsqr; field; lra].
  apply (derivable_pt_lim_div (fct_cte 1) (fun d => 1 + exp (a + b * d))).
  - apply derivable_pt_lim_const.
  - apply deriv_one_plus_exp.
  - lra.
Qed.

Lemma deriv_scaled_diff (f : R -> R) (q c0 x l : R) :
  derivable_pt_lim f x l ->
  derivable_pt_lim (fun d => q * (f d - c0)) x (q * l).
Proof.
  intros H. apply dlim_eq with (q * (l - 0)); [| ring].
  apply (derivable_pt_lim_scal (fun d => f d - c0)).
  apply (derivable_pt_lim_minus f (fct_cte c0)); [assumption |].
  apply derivable_pt_lim_const.
Qed.

(** The logistic function, as [log_u] of the sigmoid family writes it. *)
Lemma exp_sigmoid_log_u (y : R) :
  exp (ln (1 / (1 + exp (- y)))) = exp y / (1 + exp y).
Proof.
  pose proof (exp_pos y) as P. pose proof (exp_pos (- y)) as N.
  rewrite exp_ln by (apply Rdiv_lt_0_compat; lra).
  rewrite exp_Ropp. field. split; lra.
Qed.

(** [int_u] and [int_u_2] are the integrals they are named after: as
    functions of the elapsed time, their derivatives are the intensity and
    its square.  The intensity is [exp (log_u dt c)] in the exponential
    family and [k * exp (log_u dt c)] in the sigmoid family, whose [log_u]
    leaves the scale [k] out. *)
Theorem integrals_are_antiderivatives (s : sampler) (dt ci : R) :
  wt s <> 0 ->
  let u := match cls s with
           | ExpCDFSampler => exp (log_u s dt ci)
           | SigmoidCDFSampler => k s * exp (log_u s dt ci)
           end in
  derivable_pt_lim (fun d => int_u s d ci) dt u
  /\ derivable_pt_lim (fun d => int_u_2 s d ci) dt (u * u).
Proof.
  intros Hw u. subst u. unfold int_u, int_u_2, log_u.
  destruct (cls s).
  - unfold Exp.int_u, Exp.int_u_2, Exp.log_u. split.
    + apply dlim_eq with (1 / wt s * (wt s * exp (ci + wt s * dt)));
        [| field; assumption].
      apply (deriv_scaled_diff (fun d => exp (ci + wt s * d))).
      apply deriv_exp_affine.
    + apply dlim_eq
        with (1 / (2 * wt s) * (2 * wt s * exp (2 * ci + 2 * wt s * dt))).
      * apply (deriv_scaled_diff (fun d => exp (2 * ci + 2 * wt s * d))).
        apply deriv_exp_affine.
      * rewrite <- exp_plus.
        replace (ci + wt s * dt + (ci + wt s * dt))
          with (2 * ci + 2 * wt s * dt) by ring.
        field. assumption.
  - unfold Sigmoid.int_u, Sigmoid.int_u_2, Sigmoid.log_u.
    rewrite exp_sigmoid_log_u.
    pose proof (exp_pos (ci + wt s * dt)) as P.
    split.
    + apply dlim_eq
        with (k s / wt s
              * (wt s * exp (ci + wt s * dt) / (1 + exp (ci + wt s * dt))));
        [| field; split; lra].
      apply (deriv_scaled_diff (fun d => ln (1 + exp (ci + wt s * d)))).
      apply deriv_softplus_affine.
    + apply dlim_eq
        with (k s ^ 2 / wt s
              * (- (wt s * exp (ci + wt s * dt)) / (1 + exp (ci + wt s * dt)) ^ 2
                 + wt s * exp (ci + wt s * dt) / (1 + exp (ci + wt s * dt))
                 - 0 - 0));
        [| field; split; lra].
      apply (derivable_pt_lim_scal
               (fun d => 1 / (1 + exp (ci + wt s * d))
                         + ln (1 + exp (ci + wt s * d))
                         - 1 / (1 + exp ci) - ln (1 + exp ci))).
      apply (derivable_pt_lim_minus
               (fun d => 1 / (1 + exp (ci + wt s * d))
                         + ln (1 + exp (ci + wt s * d)) - 1 / (1 + exp ci))
               (fct_cte (ln (1 + exp ci)))); [| apply derivable_pt_lim_const].
      apply (derivable_pt_lim_minus
               (fun d => 1 / (1 + exp (ci + wt s * d))
                         + ln (1 + exp (ci + wt s * d)))
               (fct_cte (1 / (1 + exp ci)))); [| apply derivable_pt_lim_const].
      apply (derivable_pt_lim_plus
               (fun d => 1 / (1 + exp (ci + wt s * d)))
               (fun d => ln (1 + exp (ci + wt s * d)))).
      * apply deriv_inv_affine.
      * apply deriv_softplus_affine.
Qed.

Lemma integrals_are_antiderivatives_witness :
  derivable_pt_lim (fun d => int_u sigmoid_k2 d 0) 1
                   (k sigmoid_k2 * exp (log_u sigmoid_k2 1 0)).
Proof.
  assert (Hw : wt sigmoid_k2 <> 0) by (simpl; lra).
  exact (proj1 (integrals_are_antiderivatives sigmoid_k2 1 0 Hw)).
Defined.

(** ** The candidate time and the anchor *)

Lemma exp_le (x y : R) : x <= y -> exp x <= exp y.
Proof.
  intros [H | ->]; [left; apply exp_increasing; assumption | right; reflexivity].
Qed.

Lemma ln_le (x y : R) : 0 < x -> x <= y -> ln x <= ln y.
Proof.
  intros Hx [H | ->]; [left; apply ln_increasing; assumption | right; reflexivity].
Qed.

Lemma ln_nonneg (x : R) : 1 <= x -> 0 <= ln x.
Proof. intros H. rewrite <- ln_1. apply ln_le; lra. Qed.

Lemma ln_nonpos (x : R) : 0 < x -> x <= 1 -> ln x <= 0.
Proof. intros H0 H. rewrite <- ln_1. apply ln_le; lra. Qed.

(** The tail probability [(1 - u) / Q] that [generate_sample] inverts. *)
Lemma tail_in_unit (s : sampler) :
  u_unif s < 1 -> 0 < Q s -> 1 - u_unif s <= Q s ->
  0 < (1 - u_unif s) / Q s <= 1.
Proof.
  intros Hu HQ HI. split.
  - apply Rdiv_lt_0_compat; lra.
  - apply Rmult_le_reg_r with (Q s); [assumption |].
    replace ((1 - u_unif s) / Q s * Q s) with (1 - u_unif s) by (field; lra).
    lra.
Qed.

Lemma sample_after_anchor (s : sampler) (t : R) :
  valid_rates s ->
  u_unif s < 1 -> 0 < Q s -> 1 - u_unif s <= Q s ->
  generate_sample s = Finite t ->
  t0 s <= t.
Proof.
  intros [Ew [Hw Hk]] Hu HQ HI Hg.
  destruct (tail_in_unit s Hu HQ HI) as [X0 X1].
  pose proof (ln_nonpos _ X0 X1) as L.
  pose proof (exp_pos (c s)) as Pc.
  unfold generate_sample in Hg. destruct (cls s) eqn:E.
  - unfold Exp.generate_sample in Hg.
    destruct (Rle_dec (Exp.D s) 0) as [| HD]; [discriminate |].
    injection Hg as <-. apply Rnot_le_lt in HD.
    assert (G : 0 <= 1 / w s * ln (Exp.D s)); [| lra].
    assert (HD1 : Exp.D s - 1 = w s * (- ln ((1 - u_unif s) / Q s) / exp (c s))).
    { unfold Exp.D. field. lra. }
    assert (HP : 0 <= - ln ((1 - u_unif s) / Q s) / exp (c s)).
    { apply Rmult_le_pos; [lra |]. left. apply Rinv_0_lt_compat. assumption. }
    rewrite Ew in *.
    destruct (Rtotal_order 0 (wt s)) as [Hp | [Hz | Hn]]; [| congruence |].
    + assert (1 <= Exp.D s) by nra.
      apply Rmult_le_pos; [| apply ln_nonneg; assumption].
      left. apply Rdiv_lt_0_compat; lra.
    + assert (Exp.D s <= 1) by nra.
      pose proof (ln_nonpos _ HD H) as HL.
      assert (N : 1 / wt s < 0).
      { unfold Rdiv. rewrite Rmult_1_l. apply Rinv_lt_0_compat. assumption. }
      nra.
  - unfold Sigmoid.generate_sample in Hg.
    destruct (Rle_dec (Sigmoid.D s) 0) as [| HD]; [discriminate |].
    injection Hg as <-. apply Rnot_le_lt in HD.
    assert (G : 0 <= (ln (Sigmoid.D s) - c s) / wt s); [| lra].
    specialize (Hk eq_refl).
    set (a := - k s / wt s) in *.
    assert (HDe : Sigmoid.D s - exp (c s)
                  = (1 + exp (c s)) * (exp (a * ln ((1 - u_unif s) / Q s)) - 1)).
    { unfold Sigmoid.D, Rpower. fold a. ring. }
    destruct (Rtotal_order 0 (wt s)) as [Hp | [Hz | Hn]]; [| congruence |].
    + assert (Ha : a <= 0).
      { subst a. unfold Rdiv. pose proof (Rinv_0_lt_compat _ Hp). nra. }
      assert (0 <= a * ln ((1 - u_unif s) / Q s)) by nra.
      pose proof (exp_le _ _ H) as He. rewrite exp_0 in He.
      assert (exp (c s) <= Sigmoid.D s) by nra.
      pose proof (ln_le _ _ Pc H0) as HL. rewrite ln_exp in HL.
      apply Rmult_le_pos; [lra |]. left. apply Rinv_0_lt_compat. assumption.
    + assert (Ha : 0 <= a).
      { subst a. unfold Rdiv. pose proof (Rinv_lt_0_compat _ Hn). nra. }
      assert (a * ln ((1 - u_unif s) / Q s) <= 0) by nra.
      pose proof (exp_le _ _ H) as He. rewrite exp_0 in He.
      assert (Sigmoid.D s <= exp (c s)) by nra.
      pose proof (ln_le _ _ HD H0) as HL. rewrite ln_exp in HL.
      pose proof (Rinv_lt_0_compat _ Hn) as N. unfold Rdiv. nra.
Qed.

(** Over the real numbers, a candidate drawn afresh is never in the past:
    when the generator yields variates in [0, 1), the finite times that
    [reset] and [register_event] return for an own event, and that
    [reset_only_sample] returns, are not before the time of the call.
    (Rounding can place a candidate just before it.) *)
Theorem fresh_candidate_not_before_call (s : sampler) (cur_time : R)
        (new_h : list R) (T : R) :
  valid_rates s ->
  (forall n, 0 <= stream (random_state s) n < 1) ->
  (fst (reset cur_time new_h true s) = Ok (Finite T) -> cur_time <= T)
  /\ (fst (register_event cur_time new_h true s) = Ok (Finite T) -> cur_time <= T)
  /\ (fst (reset_only_sample cur_time s) = Ok (Finite T) -> cur_time <= T).
Proof.
  intros V Hs.
  specialize (Hs (drawn (random_state s))).
  assert (R1 : fst (reset cur_time new_h true s) = Ok (Finite T) -> cur_time <= T).
  { rewrite reset_unfold. cbn zeta.
    destruct (dot (vt s) new_h); [| discriminate].
    cbn [fst]. intros H. injection H as H.
    apply sample_after_anchor in H; simpl in *; try lra.
    exact V. }
  split; [exact R1 | split; [exact R1 |]].
  rewrite reset_only_sample_unfold. cbn zeta. cbn [fst].
  intros H. injection H as H.
  apply sample_after_anchor in H; simpl in *; try lra.
  exact V.
Qed.

Lemma fresh_candidate_not_before_call_witness :
  match fst (reset_only_sample 3 (exp_unit 0)) with
  | Ok (Finite T) => 3 <= T
  | _ => True
  end.
Proof.
  assert (V : valid_rates (exp_unit 0)).
  { unfold valid_rates. simpl. repeat split; try lra. discriminate. }
  assert (Hs : forall n : nat, 0 <= stream (random_state (exp_unit 0)) n < 1).
  { intros n. simpl. lra. }
  destruct (fst (reset_only_sample 3 (exp_unit 0))) as [[T |] |] eqn:E;
    try exact I.
  exact (proj2 (proj2 (fresh_candidate_not_before_call
                         (exp_unit 0) 3 [0] T V Hs)) E).
Defined.

(** ** Conditioning on a foreign event *)

Lemma reset_conditioned_state (s : sampler) (t1 : R) (new_h : list R) :
  length new_h = length (vt s) ->
  snd (reset t1 new_h false s)
  = mkSampler (cls s) (seed s) (vt s) (wt s) (bt s) (w s)
              (Q s * (1 - cdf s t1)) (random_state s) (u_unif s) new_h
              (inner (vt s) new_h + bt s) t1 (k s).
Proof.
  intros E. rewrite reset_unfold, (dot_aligned _ _ E). reflexivity.
Qed.

Lemma exp_survival (s : sampler) (t : R) :
  cls s = ExpCDFSampler ->
  1 - cdf s t = exp (exp (c s) / w s * (1 - exp (w s * (t - t0 s)))).
Proof. intros E. unfold cdf, Exp.cdf. rewrite E. ring. Qed.

(** The decay variable after a conditioned reset whose new bias continues
    the old intensity. *)
Lemma exp_D_after_continuation (s : sampler) (t1 : R) (new_h : list R) :
  cls s = ExpCDFSampler -> w s <> 0 -> u_unif s < 1 -> 0 < Q s ->
  length new_h = length (vt s) ->
  inner (vt s) new_h + bt s = c s + w s * (t1 - t0 s) ->
  Exp.D (snd (reset t1 new_h false s)) = Exp.D s * exp (- (w s * (t1 - t0 s))).
Proof.
  intros E Hw Hu HQ Hl Hc.
  rewrite (reset_conditioned_state s t1 new_h Hl).
  unfold Exp.D. cbn [w c u_unif Q]. rewrite Hc, (exp_survival s t1 E).
  set (dt := t1 - t0 s). set (e := exp (c s) / w s * (1 - exp (w s * dt))).
  pose proof (exp_pos (c s)) as Pc. pose proof (exp_pos (w s * dt)) as Pd.
  pose proof (exp_pos e) as Pe.
  assert (Px : 0 < (1 - u_unif s) / Q s) by (apply Rdiv_lt_0_compat; lra).
  replace ((1 - u_unif s) / (Q s * exp e))
    with ((1 - u_unif s) / Q s * / exp e) by (field; lra).
  rewrite ln_mult, ln_Rinv, ln_exp, exp_plus, exp_Ropp
    by (try apply Rinv_0_lt_compat; assumption).
  subst e. field. repeat split; lra.
Qed.

(** Over the real numbers, a foreign event that leaves the intensity as it
    was does not move the candidate: when the new bias is the old one
    advanced by [w * (t1 - t0)], the exponential sampler returns after
    [reset(t1, h, reset_sample=False)] the time it had promised before.
    (In doubles the two times differ by rounding, and without bound once
    [1 - cdf(t1)] has rounded to zero.) *)
Theorem exp_conditioning_keeps_candidate (s : sampler) (t1 : R) (new_h : list R) :
  cls s = ExpCDFSampler -> w s <> 0 -> u_unif s < 1 -> 0 < Q s ->
  length new_h = length (vt s) ->
  inner (vt s) new_h + bt s = c s + w s * (t1 - t0 s) ->
  fst (reset t1 new_h false s) = Ok (generate_sample s)
  /\ generate_sample (snd (reset t1 new_h false s)) = generate_sample s.
Proof.
  intros E Hw Hu HQ Hl Hc.
  pose proof (exp_D_after_continuation s t1 new_h E Hw Hu HQ Hl Hc) as HD.
  assert (G : generate_sample (snd (reset t1 new_h false s)) = generate_sample s).
  { unfold generate_sample at 1. unfold Exp.generate_sample. rewrite HD.
    rewrite (reset_conditioned_state s t1 new_h Hl). cbn [cls t0 w].
    rewrite E. unfold generate_sample, Exp.generate_sample. rewrite E.
    pose proof (exp_pos (- (w s * (t1 - t0 s)))) as Pe.
    destruct (Rle_dec (Exp.D s) 0) as [Le | Gt];
      destruct (Rle_dec (Exp.D s * exp (- (w s * (t1 - t0 s)))) 0) as [Le' | Gt'];
      try reflexivity.
    - exfalso. apply Gt'. nra.
    - exfalso. apply Rnot_le_lt in Gt. apply (Rlt_not_le _ _ (Rmult_lt_0_compat _ _ Gt Pe)).
      assumption.
    - apply Rnot_le_lt in Gt.
      rewrite ln_mult, ln_exp by assumption. f_equal. field. assumption. }
  split; [| exact G].
  rewrite <- G. rewrite reset_unfold, (dot_aligned _ _ Hl). reflexivity.
Qed.

Lemma exp_conditioning_keeps_candidate_witness :
  generate_sample (snd (reset 1 [1] false (exp_unit 0)))
  = generate_sample (exp_unit 0).
Proof.
  assert (Hw : w (exp_unit 0) <> 0) by (simpl; lra).
  assert (Hu : u_unif (exp_unit 0) < 1) by (simpl; lra).
  assert (HQ : 0 < Q (exp_unit 0)) by (simpl; lra).
  assert (Hc : inner (vt (exp_unit 0)) [1] + bt (exp_unit 0)
               = c (exp_unit 0) + w (exp_unit 0) * (1 - t0 (exp_unit 0)))
    by (simpl; lra).
  exact (proj2 (exp_conditioning_keeps_candidate (exp_unit 0) 1 [1]
                  eq_refl Hw Hu HQ eq_refl Hc)).
Defined.

Lemma valid_rates_exec (op : call) (s : sampler) :
  valid_rates s -> valid_rates (snd (exec op s)).
Proof.
  intros [V1 [V2 V3]].
  destruct (exec_effect op s) as [Hp _]. injection Hp as Hc Hwt Hw Hk.
  unfold valid_rates. rewrite Hc, Hwt, Hw, Hk. auto.
Qed.





(** Over the real numbers, a conditioned reset strictly after the anchor
    strictly lowers [Q] and keeps it positive.  (In doubles the factor
    [1 - cdf(cur_time)] can round to 1 or to 0.) *)
Theorem conditioning_lowers_Q (s : sampler) (cur_time : R) (new_h : list R) :
  valid_rates s -> 0 < Q s -> t0 s < cur_time ->
  0 < Q (snd (reset cur_time new_h false s)) < Q s
  /\ Q (snd (register_event cur_time new_h false s))
     = Q s * exp (- int_u s (cur_time - t0 s) (c s)).
Proof.
  intros V HQ Ht. pose proof V as [Ew [Hw _]].
  destruct (survival_range s cur_time V ltac:(lra)) as [[S0 S1] S2].
  assert (S1' : 1 - cdf s cur_time < 1).
  { destruct S1 as [S1 | S1]; [assumption |]. apply S2 in S1. lra. }
  assert (EQ : Q (snd (reset cur_time new_h false s))
               = Q s * (1 - cdf s cur_time)).
  { rewrite reset_unfold. cbn zeta. unfold after_branch.
    destruct (dot (vt s) new_h); reflexivity. }
  unfold register_event. rewrite EQ. split; [nra |].
  rewrite (cdf_is_survival_of_int_u s cur_time Ew Hw). reflexivity.
Qed.

Lemma conditioning_lowers_Q_witness :
  0 < Q (snd (reset 1 [0] false (exp_unit 0))) < Q (exp_unit 0).
Proof.
  assert (V : valid_rates (exp_unit 0)).
  { unfold valid_rates. simpl. repeat split; try lra. discriminate. }
  assert (HQ : 0 < Q (exp_unit 0)) by (simpl; lra).
  assert (Ht : t0 (exp_unit 0) < 1) by (simpl; lra).
  exact (proj1 (conditioning_lowers_Q (exp_unit 0) 1 [0] V HQ Ht)).
Defined.

(** ** The survival factor and the likelihood *)

Lemma fold_left_Rplus_acc (l : list R) (a : R) :
  fold_left Rplus l a = a + py_sum l.
Proof.
  unfold py_sum. revert a. induction l as [| x l IH]; intros a; simpl.
  - ring.
  - rewrite IH, (IH (0 + x)). ring.
Qed.

Lemma py_sum_cons (x : R) (l : list R) : py_sum (x :: l) = x + py_sum l.
Proof.
  unfold py_sum at 1. simpl. rewrite fold_left_Rplus_acc. ring.
Qed.

Lemma combine_fst_snd {A B : Type} (l : list (A * B)) :
  combine (map fst l) (map snd l) = l.
Proof.
  induction l as [| [a b] l IH]; simpl; [| rewrite IH]; reflexivity.
Qed.

Lemma filter_flags_all_false {A : Type} (l : list A) (n : nat) :
  filter (fun p : A * bool => snd p) (combine l (repeat false n)) = [].
Proof.
  revert n. induction l as [| x l IH]; intros [| n]; simpl; auto.
Qed.

Lemma int_u_same_rates (s s' : sampler) (dt ci : R) :
  (cls s', wt s', w s', k s') = (cls s, wt s, w s, k s) ->
  int_u s' dt ci = int_u s dt ci.
Proof.
  intros H. injection H as Hc Hwt Hw Hk.
  unfold int_u, Exp.int_u, Sigmoid.int_u. rewrite Hc, Hwt, Hk. reflexivity.
Qed.

Lemma conditioning_run (ops : list call) :
  forall s,
    valid_rates s -> 0 < Q s -> Forall (conditioning s) ops ->
    0 < Q (run ops s)
    /\ ln (Q (run ops s))
       = ln (Q s) - py_sum (map (fun p => int_u s (fst p) (snd p))
                                (intervals ops s)).
Proof.
  induction ops as [| op ops IH]; intros s V HQ HF.
  - simpl. split; [assumption |]. unfold py_sum. simpl. ring.
  - inversion HF as [| ? ? Hop HF']; subst.
    pose proof V as [Ew [Hw _]].
    set (s1 := snd (exec op s)).
    assert (Hs1 : Q s1 = Q s * exp (- int_u s (call_time op - t0 s) (c s))
                  /\ vt s1 = vt s).
    { subst s1. rewrite <- (cdf_is_survival_of_int_u s _ Ew Hw).
      destruct op as [t hs [|] | t hs [|] | t]; simpl in Hop; try contradiction;
        cbn [exec call_time]; unfold register_event;
        rewrite (reset_conditioned_state s t hs Hop); split; reflexivity. }
    destruct Hs1 as [EQ Evt].
    assert (V1 : valid_rates s1) by (apply valid_rates_exec; assumption).
    pose proof (exp_pos (- int_u s (call_time op - t0 s) (c s))) as Pe.
    assert (HQ1 : 0 < Q s1) by (rewrite EQ; apply Rmult_lt_0_compat; assumption).
    assert (HF1 : Forall (conditioning s1) ops).
    { eapply Forall_impl; [| exact HF']. intros o Ho.
      destruct o as [? ? [|] | ? ? [|] | ?]; simpl in *; congruence. }
    destruct (IH s1 V1 HQ1 HF1) as [P E].
    cbn [run intervals map]. fold s1. split; [assumption |].
    rewrite E, EQ, ln_mult, ln_exp, py_sum_cons by assumption.
    cbn [fst snd].
    assert (Hmap : map (fun p => int_u s1 (fst p) (snd p)) (intervals ops s1)
                   = map (fun p => int_u s (fst p) (snd p)) (intervals ops s1)).
    { apply map_ext. intros p. apply int_u_same_rates.
      subst s1. apply (proj1 (exec_effect op s)). }
    rewrite Hmap. ring.
Qed.

(** Over the real numbers, after a run of conditioned calls the logarithm
    of the survival factor is the log-likelihood of the trajectory with no
    event of its own: [calc_LL], on the elapsed times and biases of the
    calls and with every flag false, returns [ln Q] after the calls minus
    [ln Q] before them (which is [ln Q] itself when the run starts from a
    fresh draw).  (In doubles [Q] loses this by cancellation in
    [1 - cdf(cur_time)], down to [Q = 0].) *)
Theorem survival_factor_is_likelihood (s : sampler) (ops : list call) :
  valid_rates s -> 0 < Q s -> ops <> [] -> Forall (conditioning s) ops ->
  calc_LL s (map fst (intervals ops s)) (map snd (intervals ops s))
          (repeat false (length ops))
  = Ok (ln (Q (run ops s)) - ln (Q s)).
Proof.
  intros V HQ Hne HF.
  destruct (conditioning_run ops s V HQ HF) as [_ E].
  unfold calc_LL.
  assert (Hlast : item_m1 (repeat false (length ops)) = Ok false).
  { destruct ops as [| op ops]; [contradiction |].
    cbn [length]. replace (S (length ops)) with (length ops + 1)%nat by lia.
    rewrite repeat_app. apply item_m1_snoc. }
  rewrite Hlast. cbn zeta. unfold zip3.
  rewrite filter_flags_all_false, combine_fst_snd, E.
  f_equal. unfold py_sum at 1. simpl. ring.
Qed.

Lemma survival_factor_is_likelihood_witness :
  calc_LL (exp_unit 0)
          (map fst (intervals [call_register_event 1 [0] false] (exp_unit 0)))
          (map snd (intervals [call_register_event 1 [0] false] (exp_unit 0)))
          (repeat false 1)
  = Ok (ln (Q (run [call_register_event 1 [0] false] (exp_unit 0)))
        - ln (Q (exp_unit 0))).
Proof.
  assert (V : valid_rates (exp_unit 0)).
  { unfold valid_rates. simpl. repeat split; try lra. discriminate. }
  assert (HQ : 0 < Q (exp_unit 0)) by (simpl; lra).
  assert (Hne : [call_register_event 1 [0] false] <> []) by discriminate.
  assert (HF : Forall (conditioning (exp_unit 0))
                      [call_register_event 1 [0] false]).
  { constructor; [reflexivity | constructor]. }
  exact (survival_factor_is_likelihood (exp_unit 0) _ V HQ Hne HF).
Defined.

(** ** The quadratic penalty *)

Lemma ln_le_minus_1 (z : R) : 0 < z -> ln z <= z - 1.
Proof.
  intros Hz. pose proof (exp_ineq1_le (ln z)) as H.
  rewrite exp_ln in H by assumption. lra.
Qed.

Lemma sigmoid_sq_primitive_increasing (a b : R) :
  a < b ->
  1 / (1 + exp a) + ln (1 + exp a) < 1 / (1 + exp b) + ln (1 + exp b).
Proof.
  intros H.
  pose proof (exp_pos a) as Pa. pose proof (exp_increasing a b H) as Pb.
  set (A := 1 + exp a) in *. set (B := 1 + exp b) in *.
  assert (HA : 1 < A) by (subst A; lra).
  assert (HB : A < B) by (subst A B; lra).
  assert (Hr : 0 < A / B) by (apply Rdiv_lt_0_compat; lra).
  pose proof (ln_le_minus_1 (A / B) Hr) as L.
  rewrite ln_quotient in L by lra.
  assert (G : 0 < 1 / B - 1 / A + (1 - A / B)).
  { replace (1 / B - 1 / A + (1 - A / B)) with ((B - A) * (A - 1) / (A * B))
      by (field; split; lra).
    apply Rdiv_lt_0_compat; apply Rmult_lt_0_compat; lra. }
  lra.
Qed.

Lemma int_u_2_nonneg (s : sampler) (dt ci : R) :
  valid_rates s -> 0 <= dt -> 0 <= int_u_2 s dt ci.
Proof.
  intros [_ [Hw Hk]] [Hdt | <-].
  - left. unfold int_u_2, Exp.int_u_2, Sigmoid.int_u_2.
    destruct (cls s) eqn:E.
    + apply (scaled_increase_pos exp); [apply exp_increasing | | assumption].
      replace (1 / (2 * wt s) * (2 * wt s)) with 1 by (field; assumption). lra.
    + specialize (Hk eq_refl).
      replace (1 / (1 + exp (ci + wt s * dt)) + ln (1 + exp (ci + wt s * dt))
               - 1 / (1 + exp ci) - ln (1 + exp ci))
        with ((fun y => 1 / (1 + exp y) + ln (1 + exp y)) (ci + wt s * dt)
              - (fun y => 1 / (1 + exp y) + ln (1 + exp y)) ci)
        by (cbv beta; ring).
      apply (scaled_increase_pos (fun y => 1 / (1 + exp y) + ln (1 + exp y)));
        [apply sigmoid_sq_primitive_increasing | | assumption].
      replace (k s ^ 2 / wt s * wt s) with (k s * k s) by (field; assumption).
      apply Rmult_lt_0_compat; assumption.
  - right. unfold int_u_2, Exp.int_u_2, Sigmoid.int_u_2.
    destruct (cls s); rewrite !Rmult_0_r, !Rplus_0_r; ring.
Qed.

(** Over the real numbers, the quadratic penalty is non-negative on elapsed
    times that are non-negative, whatever the biases and the lengths of the
    two lists; it is zero on an empty trajectory.  (In doubles a term can
    come out negative by a rounding error.) *)
Theorem calc_quad_loss_nonneg (s : sampler) (dts cs : list R) :
  valid_rates s -> Forall (fun dt => 0 <= dt) dts ->
  0 <= calc_quad_loss s dts cs
  /\ calc_quad_loss s [] cs = 0 /\ calc_quad_loss s dts [] = 0.
Proof.
  intros V HF. split; [| split].
  - unfold calc_quad_loss. revert cs.
    induction HF as [| dt dts Hdt HF IH]; intros cs.
    + unfold py_sum. simpl. lra.
    + destruct cs as [| ci cs]; [unfold py_sum; simpl; lra |].
      cbn [combine map fst snd]. rewrite py_sum_cons.
      pose proof (int_u_2_nonneg s dt ci V Hdt). pose proof (IH cs). lra.
  - reflexivity.
  - unfold calc_quad_loss. destruct dts; reflexivity.
Qed.

Lemma calc_quad_loss_nonneg_witness :
  0 <= calc_quad_loss sigmoid_k2 [1; 2] [0; 3].
Proof.
  assert (V : valid_rates sigmoid_k2).
  { unfold valid_rates. simpl. repeat split; lra. }
  assert (HF : Forall (fun dt => 0 <= dt) [1; 2]).
  { repeat constructor; lra. }
  exact (proj1 (calc_quad_loss_nonneg sigmoid_k2 [1; 2] [0; 3] V HF)).
Defined.

(** ** [reset] on a hidden state of the wrong dimension *)

(** When [vt] has several components and the hidden state does not have
    as many, [reset] raises [ValueError] half way: the branch on
    [reset_sample] has run and [h] is already the new state, while [c] and
    [t0] are still the old ones, so [get_last_hidden_state] and [get_last_c]
    no longer agree.  (A [vt] of one component is squeezed to a scalar, which
    numpy multiplies into a hidden state of any length; that case is left
    out.) *)
Theorem reset_misaligned (s : sampler) (cur_time : R) (new_h : list R)
        (reset_sample : bool) :
  length (vt s) <> 1%nat ->
  length new_h <> length (vt s) ->
  let out := reset cur_time new_h reset_sample s in
  let s' := snd out in
  fst out = Raise ValueError
  /\ get_last_hidden_state s' = new_h
  /\ get_last_c s' = c s
  /\ t0 s' = t0 s
  /\ Q s' = (if reset_sample then 1 else Q s * (1 - cdf s cur_time))
  /\ (drew_fresh s s' <-> reset_sample = true).
Proof.
  intros _ NE out s'. subst s' out. rewrite reset_unfold. cbn zeta.
  unfold dot. destruct (Nat.eqb_spec (length (vt s)) (length new_h)) as [E | _];
    [congruence |].
  unfold after_branch, drew_fresh, get_last_hidden_state, get_last_c.
  destruct reset_sample; simpl; repeat split; auto; try discriminate.
Qed.

Lemma reset_misaligned_witness :
  fst (reset 1 [0] false exp_pair) = Raise ValueError.
Proof.
  assert (N1 : length (vt exp_pair) <> 1%nat) by (simpl; lia).
  assert (NE : length [0] <> length (vt exp_pair)) by (simpl; lia).
  exact (proj1 (reset_misaligned exp_pair 1 [0] false N1 NE)).
Defined.

(** ** Re-anchoring without an event *)

(** [reset_only_sample] re-anchors the same intensity: at every absolute
    time [t] the log-intensity is what it was before the call, and the
    survival probability from the old anchor factors into the survival up
    to [cur_time] and the survival of the re-anchored sampler. *)
Theorem reset_only_sample_keeps_intensity (s : sampler) (cur_time t : R) :
  w s = wt s -> wt s <> 0 ->
  let s' := snd (reset_only_sample cur_time s) in
  log_u s' (t - t0 s') (c s') = log_u s (t - t0 s) (c s)
  /\ 1 - cdf s t = (1 - cdf s cur_time) * (1 - cdf s' t).
Proof.
  intros Ew Hw s'. subst s'. rewrite reset_only_sample_unfold. cbn zeta.
  cbn [snd]. split.
  - unfold log_u, Exp.log_u, Sigmoid.log_u. cbn [cls wt t0 c]. rewrite Ew.
    destruct (cls s);
      replace (c s + wt s * (cur_time - t0 s) + wt s * (t - cur_time))
        with (c s + wt s * (t - t0 s)) by ring; reflexivity.
  - rewrite !cdf_is_survival_of_int_u by assumption.
    cbn [t0 c]. rewrite <- exp_plus. f_equal.
    replace (t - t0 s) with ((cur_time - t0 s) + (t - cur_time)) by ring.
    rewrite int_u_split, Ew.
    match goal with
    | |- context [int_u ?r (t - cur_time) ?b] =>
        lazymatch r with
        | s => fail
        | _ => rewrite (int_u_same_rates s r (t - cur_time) b)
                 by (simpl; rewrite Ew; reflexivity)
        end
    end.
    ring.
Qed.

Lemma reset_only_sample_keeps_intensity_witness :
  log_u (snd (reset_only_sample 1 sigmoid_k2))
        (3 - t0 (snd (reset_only_sample 1 sigmoid_k2)))
        (c (snd (reset_only_sample 1 sigmoid_k2)))
  = log_u sigmoid_k2 (3 - t0 sigmoid_k2) (c sigmoid_k2).
Proof.
  assert (Hw : wt sigmoid_k2 <> 0) by (simpl; lra).
  exact (proj1 (reset_only_sample_keeps_intensity sigmoid_k2 1 3 eq_refl Hw)).
Defined.

(** ** The time sampled, in general *)





(** ** When the process never fires *)

(** Over the real numbers, with a growing intensity ([wt > 0]) a sampler
    whose tail probability is at most 1 always returns a finite time, in
    both families.  (In doubles [D] can overflow and the time be
    infinite.) *)
Theorem growing_intensity_always_fires (s : sampler) :
  valid_rates s -> 0 < wt s ->
  u_unif s < 1 -> 0 < Q s -> 1 - u_unif s <= Q s ->
  exists t, generate_sample s = Finite t /\ t0 s <= t.
Proof.
  intros V Hp Hu HQ HI. pose proof V as [Ew [Hw Hk]].
  destruct (tail_in_unit s Hu HQ HI) as [X0 X1].
  pose proof (ln_nonpos _ X0 X1) as L.
  pose proof (exp_pos (c s)) as Pc.
  assert (HD : 0 < D s).
  { unfold D. destruct (cls s) eqn:E.
    - unfold Exp.D. rewrite Ew.
      assert (0 < wt s / exp (c s)) by (apply Rdiv_lt_0_compat; assumption).
      nra.
    - unfold Sigmoid.D, Rpower. specialize (Hk eq_refl).
      assert (Ha : - k s / wt s < 0).
      { unfold Rdiv. pose proof (Rinv_0_lt_compat _ Hp). nra. }
      assert (H0 : 0 <= - k s / wt s * ln ((1 - u_unif s) / Q s)) by nra.
      pose proof (exp_le _ _ H0) as He. rewrite exp_0 in He. nra. }
  destruct (generate_sample_cases s) as [[HD' _] | [_ [t G]]]; [lra |].
  exists t. split; [exact G |].
  apply (sample_after_anchor s t V Hu HQ HI G).
Qed.

Lemma growing_intensity_always_fires_witness :
  exists t, generate_sample sigmoid_k2 = Finite t /\ t0 sigmoid_k2 <= t.
Proof.
  assert (V : valid_rates sigmoid_k2).
  { unfold valid_rates. simpl. repeat split; lra. }
  assert (Hp : 0 < wt sigmoid_k2) by (simpl; lra).
  assert (Hu : u_unif sigmoid_k2 < 1) by (simpl; lra).
  assert (HQ : 0 < Q sigmoid_k2) by (simpl; lra).
  assert (HI : 1 - u_unif sigmoid_k2 <= Q sigmoid_k2) by (simpl; lra).
  exact (growing_intensity_always_fires sigmoid_k2 V Hp Hu HQ HI).
Defined.

(** Over the real numbers, with a decaying exponential intensity ([w < 0])
    the survival probability stays above [exp (exp c / w)] at every time,
    and [generate_sample] returns [np.inf] exactly when the tail probability
    [(1 - u) / Q] does not exceed that bound: the probability that no event
    ever happens.  (In doubles the survival probability reaches the bound
    at large times.) *)
Theorem exp_never_fires_iff (s : sampler) :
  cls s = ExpCDFSampler -> w s < 0 -> u_unif s < 1 -> 0 < Q s ->
  (generate_sample s = np_inf
   <-> (1 - u_unif s) / Q s <= exp (exp (c s) / w s))
  /\ (forall t, exp (exp (c s) / w s) < 1 - cdf s t).
Proof.
  intros E Hn Hu HQ.
  pose proof (exp_pos (c s)) as Pc.
  assert (X0 : 0 < (1 - u_unif s) / Q s) by (apply Rdiv_lt_0_compat; lra).
  pose proof (Rinv_lt_0_compat _ Hn) as Ni.
  pose proof (Rinv_0_lt_compat _ Pc) as Pi.
  set (q := exp (c s) / w s).
  assert (Hq : q < 0) by (subst q; unfold Rdiv; nra).
  set (x := (1 - u_unif s) / Q s) in *.
  assert (HD : Exp.D s <= 0 <-> ln x <= q).
  { unfold Exp.D. fold x.
    assert (Hid : w s / exp (c s) * q = 1) by (subst q; field; split; lra).
    assert (Hr : w s / exp (c s) < 0) by (unfold Rdiv; nra).
    split; intros H.
    - assert (Hm : w s / exp (c s) * q <= w s / exp (c s) * ln x) by lra.
      apply Rmult_le_reg_l with (- (w s / exp (c s))); [lra |]. lra.
    - assert (Hm : w s / exp (c s) * q <= w s / exp (c s) * ln x).
      { apply Rmult_le_compat_neg_l; lra. }
      lra. }
  split.
  - split; intros H.
    + destruct (generate_sample_cases s) as [[Hd _] | [_ [t G]]];
        [| rewrite H in G; discriminate].
      unfold D in Hd. rewrite E in Hd. apply HD in Hd.
      rewrite <- (exp_ln x X0). apply exp_le. assumption.
    + destruct (generate_sample_cases s) as [[_ G] | [Hd _]]; [exact G |].
      exfalso. unfold D in Hd. rewrite E in Hd.
      assert (ln x <= q).
      { rewrite <- (ln_exp q). apply ln_le; assumption. }
      apply HD in H0. lra.
  - intros t. rewrite (exp_survival s t E). fold q.
    apply exp_increasing.
    pose proof (exp_pos (w s * (t - t0 s))) as Pd.
    set (d := exp (w s * (t - t0 s))) in *.
    assert (0 < (- q) * d) by (apply Rmult_lt_0_compat; lra).
    replace (q * (1 - d)) with (q + (- q) * d) by ring. lra.
Qed.

Lemma exp_never_fires_iff_witness :
  generate_sample exp_decaying = np_inf
  <-> (1 - u_unif exp_decaying) / Q exp_decaying
      <= exp (exp (c exp_decaying) / w exp_decaying).
Proof.
  assert (Hn : w exp_decaying < 0) by (simpl; lra).
  assert (Hu : u_unif exp_decaying < 1).
  { simpl. pose proof (exp_pos (-30)). lra. }
  assert (HQ : 0 < Q exp_decaying) by (simpl; lra).
  exact (proj1 (exp_never_fires_iff exp_decaying eq_refl Hn Hu HQ)).
Defined.

(** ** From construction on *)

Lemma seed_ok_range (seed_ : Z) :
  seed_ok seed_ = true <-> (0 <= seed_ < 2 ^ 32)%Z.
Proof.
  unfold seed_ok. rewrite andb_true_iff, Z.leb_le, Z.ltb_lt. tauto.
Qed.

Lemma constructed_ready (mt19937 : Z -> nat -> R) (kl : klass)
        (k_ : R) (vt_ : list R) (wt_ bt_ : R) (init_h : list R) (t_min : R)
        (seed_ : Z) :
  seed_ok seed_ = true ->
  length init_h = length vt_ -> wt_ <> 0 ->
  (kl = SigmoidCDFSampler -> 0 < k_) ->
  (forall n, 0 <= mt19937 seed_ n < 1) ->
  exists s0,
    CDFSampler_init mt19937 kl k_ vt_ wt_ bt_ init_h t_min seed_ = Ok s0
    /\ cls s0 = kl /\ valid_rates s0 /\ tail_in_range s0
    /\ Q s0 = 1 /\ u_unif s0 = mt19937 seed_ 0%nat
    /\ t0 s0 = t_min /\ get_last_c s0 = inner vt_ init_h + bt_
    /\ get_last_hidden_state s0 = init_h
    /\ not_before t_min (generate_sample s0).
Proof.
  intros Hseed E Hw Hk Hs.
  rewrite (CDFSampler_init_aligned _ _ _ _ _ _ _ _ _ Hseed E).
  eexists. split; [reflexivity |].
  set (s0 := mkSampler _ _ _ _ _ _ _ _ _ _ _ _ _).
  assert (V : valid_rates s0) by (unfold valid_rates; simpl; auto).
  assert (T : tail_in_range s0).
  { unfold tail_in_range. simpl. pose proof (Hs 0%nat). repeat split; try lra.
    - apply Hs.
    - apply Hs. }
  repeat split; try assumption; try reflexivity; try apply T.
  unfold not_before. destruct (generate_sample s0) as [T0 |] eqn:G; [| exact I].
  destruct T as [Hu [HQ [HI _]]].
  exact (sample_after_anchor s0 T0 V Hu HQ HI G).
Qed.


(** Construction.  [np.random.RandomState] refuses a seed outside
    [0, 2^32 - 1] with [ValueError].  With a seed it accepts, a sampler
    built on a hidden state of the dimension of [vt] is returned with
    [Q = 1], the first variate of its seed, the anchor at [t_min] and the
    projected bias; over the real numbers, for a nonzero rate (and a
    positive scale for the sigmoid family) and a generator of doubles in
    [0, 1), its first candidate is [np.inf] or not before [t_min]. *)
Theorem constructed_sampler_ready (mt19937 : Z -> nat -> R) (kl : klass)
        (k_ : R) (vt_ : list R) (wt_ bt_ : R) (init_h : list R) (t_min : R)
        (seed_ : Z) :
  length init_h = length vt_ -> wt_ <> 0 ->
  (kl = SigmoidCDFSampler -> 0 < k_) ->
  (forall n, 0 <= mt19937 seed_ n < 1) ->
  ((0 <= seed_ < 2 ^ 32)%Z ->
   exists s0,
     CDFSampler_init mt19937 kl k_ vt_ wt_ bt_ init_h t_min seed_ = Ok s0
     /\ cls s0 = kl /\ valid_rates s0 /\ tail_in_range s0
     /\ Q s0 = 1 /\ u_unif s0 = mt19937 seed_ 0%nat
     /\ t0 s0 = t_min /\ get_last_c s0 = inner vt_ init_h + bt_
     /\ get_last_hidden_state s0 = init_h
     /\ not_before t_min (generate_sample s0))
  /\ (~ (0 <= seed_ < 2 ^ 32)%Z ->
      CDFSampler_init mt19937 kl k_ vt_ wt_ bt_ init_h t_min seed_
      = Raise ValueError).
Proof.
  intros E Hw Hk Hs. split.
  - intros Hr. apply constructed_ready; try assumption.
    apply seed_ok_range. assumption.
  - intros Hn. unfold CDFSampler_init.
    destruct (seed_ok seed_) eqn:Es; [| reflexivity].
    apply seed_ok_range in Es. contradiction.
Qed.

Lemma constructed_sampler_ready_witness :
  exists s0,
    CDFSampler_init (fun _ _ => 1 / 2) SigmoidCDFSampler 2 [1] 1 0 [0] 0 42
    = Ok s0
    /\ not_before 0 (generate_sample s0).
Proof.
  assert (Hw : 1 <> 0) by lra.
  assert (Hk : SigmoidCDFSampler = SigmoidCDFSampler -> 0 < 2) by (intros _; lra).
  assert (Hs : forall n : nat, 0 <= (fun (_ : Z) (_ : nat) => 1 / 2) 42%Z n < 1).
  { intros n. lra. }
  assert (Hr : (0 <= 42 < 2 ^ 32)%Z) by (split; [lia | reflexivity]).
  destruct (proj1 (constructed_sampler_ready (fun _ _ => 1 / 2)
                     SigmoidCDFSampler 2 [1] 1 0 [0] 0 42 eq_refl Hw Hk Hs) Hr)
    as [s0 H].
  exists s0. split; [apply H | apply H].
Defined.





(** ** [get_next_interval] *)

Lemma register_event_outcome (s : sampler) (t : R) (new_h : list R) (own : bool) :
  (length new_h = length (vt s)
   /\ fst (register_event t new_h own s)
      = Ok (generate_sample (snd (register_event t new_h own s)))
   /\ t0 (snd (register_event t new_h own s)) = t
   /\ h (snd (register_event t new_h own s)) = new_h)
  \/ (length new_h <> length (vt s)
      /\ fst (register_event t new_h own s) = Raise ValueError
      /\ t0 (snd (register_event t new_h own s)) = t0 s).
Proof.
  unfold register_event. rewrite reset_unfold. cbn zeta. unfold dot.
  destruct (Nat.eqb_spec (length (vt s)) (length new_h)) as [E | NE].
  - left. repeat split. congruence.
  - right. split; [congruence |]. split; [reflexivity |].
    unfold after_branch. destruct own; reflexivity.
Qed.

(** How a call of [get_next_interval] can end, for a sampler whose [vt] has
    a length other than 1.  Without an event it returns
    the pending candidate of the sampler, an absolute time, and leaves the
    sampler alone.  On an event it returns only a delay that is [np.inf] or
    non-negative, measured from [last_self_event_time], with the sampler
    re-anchored at the time of the event on the hidden state now in
    [cur_h]; when the assertion fails the sampler has been re-anchored all
    the same, on a candidate earlier than [last_self_event_time]; a
    [ValueError] of the sampler leaves its anchor where it was; and when
    [update_hidden_state] raises, sampler and hidden state are untouched. *)
Theorem get_next_interval_outcomes (State : Type)
        (set_track_src_id : Z -> list Z -> State -> State)
        (apply_event : option Event -> State -> State)
        (update_hidden_state : broadcaster State -> Z -> R -> option (list R))
        (event : option Event) (self : broadcaster State) :
  length (vt (bc_exp_sampler State self)) <> 1%nat ->
  let out := get_next_interval State set_track_src_id apply_event
                               update_hidden_state event self in
  let self' := snd out in
  let smp := bc_exp_sampler State self in
  let smp' := bc_exp_sampler State self' in
  let last := bc_last_self_event_time State self in
  bc_init State self' = true
  /\ match event, fst out with
     | None, Returned v =>
         v = generate_sample smp /\ smp' = smp
         /\ bc_cur_h State self' = bc_cur_h State self
     | None, _ => False
     | Some ev, Returned v =>
         v = npfloat_sub (generate_sample smp') last
         /\ not_before 0 v
         /\ t0 smp' = ev_cur_time ev
         /\ h smp' = bc_cur_h State self'
     | Some ev, Raised AssertionError =>
         (exists T, generate_sample smp' = Finite T /\ T < last)
         /\ t0 smp' = ev_cur_time ev
     | Some ev, Raised ValueError =>
         length (bc_cur_h State self') <> length (vt smp) /\ t0 smp' = t0 smp
     | Some ev, Raised IndexError => False
     | Some ev, RaisedOutside =>
         smp' = smp /\ bc_cur_h State self' = bc_cur_h State self
     end.
Proof.
  intros _ out self' smp smp' last. subst out self' smp' last.
  unfold get_next_interval.
  set (self1 := if bc_init State self then self else _).
  assert (H1 : bc_init State self1 = true
               /\ bc_exp_sampler State self1 = smp
               /\ bc_cur_h State self1 = bc_cur_h State self
               /\ bc_last_self_event_time State self1
                  = bc_last_self_event_time State self
               /\ bc_src_id State self1 = bc_src_id State self).
  { subst self1 smp. destruct (bc_init State self) eqn:Ei; simpl; auto. }
  destruct H1 as [Hi [Hs [Hh [Hl Hid]]]].
  cbn zeta. cbn [bc_exp_sampler bc_last_self_event_time bc_src_id].
  destruct event as [ev |].
  - destruct (update_hidden_state _ (ev_src_id ev) (ev_time_delta ev))
      as [new_h |]; [| cbn; rewrite Hi, Hs, Hh; auto].
    rewrite Hs, Hl, Hid.
    set (own := Z.eqb (ev_src_id ev) (bc_src_id State self)).
    destruct (register_event_outcome smp (ev_cur_time ev) new_h own)
      as [[Ha [R [Rt Rh]]] | [Ha [R Rt]]]; rewrite R.
    + set (s' := snd (register_event (ev_cur_time ev) new_h own smp)) in *.
      unfold npfloat_nonneg, npfloat_sub.
      destruct (generate_sample s') as [T |] eqn:G.
      * destruct (Rle_dec 0 (T - bc_last_self_event_time State self))
          as [Le | Gt]; cbn [fst snd bc_init bc_exp_sampler bc_cur_h].
        -- fold s'. rewrite G. simpl. auto.
        -- fold s'. split; [assumption |]. split; [| assumption].
           exists T. split; [assumption | lra].
      * cbn [fst snd bc_init bc_exp_sampler bc_cur_h]. fold s'. rewrite G.
        simpl. auto.
    + cbn [fst snd bc_init bc_exp_sampler bc_cur_h]. auto.
  - cbn [fst snd bc_init bc_exp_sampler bc_cur_h]. rewrite Hs, Hh. auto.
Qed.

Lemma get_next_interval_outcomes_witness :
  bc_init unit
          (snd (get_next_interval unit (fun _ _ st => st) (fun _ st => st)
                                  (fun _ _ _ => Some [0])
                                  (Some (mkEvent 3 0 1))
                                  (mkBroadcaster unit 7 [] false [0; 0]
                                                 exp_pair tt 0)))
  = true.
Proof.
  assert (N1 : length (vt (bc_exp_sampler unit
                             (mkBroadcaster unit 7 [] false [0; 0]
                                            exp_pair tt 0))) <> 1%nat)
    by (simpl; lia).
  exact (proj1 (get_next_interval_outcomes unit (fun _ _ st => st)
                  (fun _ st => st) (fun _ _ _ => Some [0])
                  (Some (mkEvent 3 0 1))
                  (mkBroadcaster unit 7 [] false [0; 0] exp_pair tt 0) N1)).
Defined.


